(** * Adaptive curriculum engine of the self-evolving benchmark

    A shallow embedding of the algorithmic core of the [bench] package:
    - [bench/ema.py]      : module [Ema]      (trend estimator),
    - [bench/generate.py] : module [Generate] (similarity index, retry loop),
    - [bench/evolve.py]   : module [Evolve]   (curriculum policy),
    - [bench/evaluate.py] : module [Evaluate] (normalisation of a grading).

    Each module of definitions is followed by a module of facts; the
    modules [EmaMore], [NormalizeFacts], [FilterFacts], [EvolveMore],
    [EvaluateMore] and [Reply] at the end hold further properties of the
    same code and of the reply handling of [QuestionGenerator.generate].

    Python [float]s are idealised: as real numbers in [Ema], where the
    source needs [math.pow] with a real exponent, and as rationals
    elsewhere, where only comparisons against decimal constants occur.
    Rounding is not modelled. *)

From Stdlib Require Import Reals Lra Lia ZArith QArith List String Ascii.
From Stdlib Require Import Sorting.Sorted Sorting.Permutation.
From stdpp Require Import base gmap sets list strings.

(** ** Python idioms shared by the modules *)

Module Py.

(** [l[start:]] for a Python list: a negative [start] counts from the
    end and is clamped at the beginning; a non-negative one is clamped
    at the end. *)
Definition slice_from {A : Type} (l : list A) (start : Z) : list A :=
  if (start <? 0)%Z
  then drop (Z.to_nat (Z.max 0 (Z.of_nat (length l) + start))) l
  else drop (Z.to_nat start) l.

(** [l[-n:]]: note that [-0 = 0], so [l[-0:]] is the whole list. *)
Definition last_n {A : Type} (l : list A) (n : Z) : list A :=
  slice_from l (- n)%Z.

Lemma last_n_pos {A : Type} (l : list A) (n : Z) :
  (0 < n)%Z -> last_n l n = drop (length l - Z.to_nat n) l.
Proof.
  intros Hn. unfold last_n, slice_from.
  destruct (Z.ltb_spec (- n) 0) as [_|Hge]; [|lia].
  f_equal. lia.
Qed.

Lemma last_n_zero {A : Type} (l : list A) : last_n l 0 = l.
Proof. reflexivity. Qed.

(** The exceptions the modelled code can raise. *)
Inductive exn : Type :=
| ValueError (msg : string)
| AttributeError (msg : string).

(** Outcome of a call: a returned value or a raised exception. *)
Inductive outcome (A : Type) : Type :=
| Returns (a : A)
| Raises (e : exn).
Arguments Returns {A} a.
Arguments Raises {A} e.

Definition bind {A B : Type} (m : outcome A) (k : A -> outcome B) : outcome B :=
  match m with
  | Returns a => k a
  | Raises e => Raises e
  end.

(** Values stored in the small dictionaries the code passes around. *)
Inductive pyval : Type :=
| VNone
| VBool (b : bool)
| VInt (n : Z)
| VFloat (q : Q).

End Py.

(** ** bench/ema.py *)

Module Ema.

Local Open Scope R_scope.

Import Py.

(** [math.pow(2.0, y)] is [Rpower 2 y]. *)
Definition alpha_from_half_life (half_life : R) : outcome R :=
  if Rle_dec half_life 0
  then Raises (ValueError "half_life must be > 0")
  else Returns (1 - Rpower 2 (-1 / half_life)).

Record EMAScore : Type := mkEMA { alpha : R; value : option R }.

(** [EMAScore.update]: the new object state and the returned float. *)
Definition update (self : EMAScore) (x : R) : EMAScore * R :=
  let v := match value self with
           | None => x
           | Some v0 => alpha self * x + (1 - alpha self) * v0
           end in
  (mkEMA (alpha self) (Some v), v).

(** A run of consecutive [update] calls on one object: the final state
    and the list of returned values, in call order. *)
Fixpoint updates (self : EMAScore) (xs : list R) : EMAScore * list R :=
  match xs with
  | [] => (self, [])
  | x :: xs' =>
      let '(self1, r) := update self x in
      let '(self2, rs) := updates self1 xs' in
      (self2, r :: rs)
  end.

(** [EMAScore(alpha=a)]. *)
Definition fresh (a : R) : EMAScore := mkEMA a None.

(** Weighted sum of a list read most-recent-first: the element at
    position [k] (that is, [k] steps ago) is weighted by [w k]. *)
Fixpoint weighted_sum (w : nat -> R) (k : nat) (recent_first : list R) : R :=
  match recent_first with
  | [] => 0
  | x :: l => w k * x + weighted_sum w (S k) l
  end.

(** The weights as the specification words them. *)
Definition geometric_weight (a : R) (k : nat) : R := a * (1 - a) ^ k.

(** The weights the code realises after [n+1] updates: the first input,
    [n] steps ago, keeps the whole remaining mass [(1-a)^n]. *)
Definition ema_weight (a : R) (n k : nat) : R :=
  if Nat.eqb k n then (1 - a) ^ n else a * (1 - a) ^ k.

Definition unit_interval (x : R) : Prop := 0 <= x <= 1.

End Ema.

(** ** Properties of bench/ema.py *)

Module EmaFacts.
Import Py Ema.
Local Open Scope R_scope.


Lemma alpha_positive_half_life (h : R) :
  0 < h -> alpha_from_half_life h = Returns (1 - Rpower 2 (-1 / h)).
Proof.
  intros Hh. unfold alpha_from_half_life.
  destruct (Rle_dec h 0) as [Hle|_]; [lra | reflexivity].
Qed.


Lemma Rpower_2_neg1 : Rpower 2 (-1 / 1) = 1 / 2.
Proof.
  replace (-1 / 1) with (Ropp 1) by lra.
  rewrite Rpower_Ropp. rewrite Rpower_1 by lra. lra.
Qed.

(** C9: [alpha_from_half_life] raises exactly on a half-life [<= 0];
    on a positive one it returns [1 - 2^(-1/half_life)], and a half-life
    of 1 gives the factor 0.5. *)
Theorem alpha_from_half_life_domain (h : R) :
  ((exists msg, alpha_from_half_life h = Raises (ValueError msg)) <-> h <= 0) /\
  (0 < h -> alpha_from_half_life h = Returns (1 - Rpower 2 (-1 / h))) /\
  alpha_from_half_life 1 = Returns (1 / 2).
Proof.
  split; [|split].
  - unfold alpha_from_half_life.
    destruct (Rle_dec h 0) as [Hle|Hgt]; split.
    + intros _. exact Hle.
    + intros _. eexists. reflexivity.
    + intros [msg Hmsg]. discriminate Hmsg.
    + intros Hle. contradiction.
  - apply alpha_positive_half_life.
  - rewrite alpha_positive_half_life by lra.
    rewrite Rpower_2_neg1. f_equal. lra.
Qed.




(** *** Runs of updates *)

Lemma updates_snoc (e : EMAScore) (xs : list R) (x : R) :
  updates e (xs ++ [x]) =
  (fst (update (fst (updates e xs)) x),
   snd (updates e xs) ++ [snd (update (fst (updates e xs)) x)]).
Proof.
  revert e. induction xs as [|y ys IH]; intros e.
  - reflexivity.
  - cbn [app updates].
    destruct (update e y) as [e1 r] eqn:Hup.
    rewrite (IH e1).
    destruct (updates e1 ys) as [e2 rs]. reflexivity.
Qed.

Lemma update_stores_result (e : EMAScore) (x : R) :
  value (fst (update e x)) = Some (snd (update e x)) /\
  alpha (fst (update e x)) = alpha e.
Proof. split; reflexivity. Qed.

Lemma updates_alpha (e : EMAScore) (xs : list R) :
  alpha (fst (updates e xs)) = alpha e.
Proof.
  revert e. induction xs as [|y ys IH]; intros e; [reflexivity|].
  cbn [updates]. destruct (update e y) as [e1 r] eqn:Hup.
  specialize (IH e1). destruct (updates e1 ys) as [e2 rs].
  cbn [fst] in *. rewrite IH.
  change e1 with (fst (e1, r)). rewrite <- Hup. reflexivity.
Qed.

Lemma ema_weight_shift (a : R) (n k : nat) :
  ema_weight a (S n) (S k) = (1 - a) * ema_weight a n k.
Proof.
  unfold ema_weight. cbn [Nat.eqb].
  destruct (Nat.eqb k n); cbn [pow]; ring.
Qed.

Lemma weighted_sum_shift (a : R) (n : nat) (l : list R) (k : nat) :
  weighted_sum (ema_weight a (S n)) (S k) l =
  (1 - a) * weighted_sum (ema_weight a n) k l.
Proof.
  revert k. induction l as [|x l IH]; intros k; cbn [weighted_sum].
  - ring.
  - rewrite IH, ema_weight_shift. ring.
Qed.

Lemma ema_closed_form (a x0 : R) (rest : list R) :
  value (fst (updates (fresh a) (x0 :: rest))) =
  Some (weighted_sum (ema_weight a (length rest)) 0 (rev (x0 :: rest))).
Proof.
  induction rest as [|x r IH] using rev_ind.
  - cbn. f_equal. unfold ema_weight. cbn. ring.
  - rewrite app_comm_cons, updates_snoc. cbn [fst].
    unfold update at 1. cbn [fst value].
    rewrite IH, updates_alpha. cbn [fresh alpha].
    rewrite rev_app_distr. cbn [rev app weighted_sum].
    rewrite length_app. cbn [length].
    replace (length r + 1)%nat with (S (length r)) by lia.
    rewrite weighted_sum_shift.
    assert (Hw0 : ema_weight a (S (length r)) 0 = a).
    { unfold ema_weight. cbn [Nat.eqb pow]. ring. }
    rewrite Hw0. reflexivity.
Qed.

(** C4 as stated fails already on the first update: with factor 0.5
    and the single input 1.0 the estimator holds 1.0, whereas the weight
    [factor * (1 - factor)^0] would give 0.5. *)
Lemma ema_first_input_not_geometric :
  value (fst (updates (fresh (1 / 2)) [1])) = Some 1 /\
  weighted_sum (geometric_weight (1 / 2)) 0 (rev [1]) = 1 / 2 /\
  value (fst (updates (fresh (1 / 2)) [1])) <>
  Some (weighted_sum (geometric_weight (1 / 2)) 0 (rev [1])).
Proof.
  assert (Hw : weighted_sum (geometric_weight (1 / 2)) 0 (rev [1]) = 1 / 2).
  { cbn. unfold geometric_weight. cbn. lra. }
  split; [reflexivity|]. split; [exact Hw|].
  rewrite Hw. cbn. intros Heq. injection Heq as Heq. lra.
Qed.

(** C4, amended: after the [n+1] updates [x_0, ..., x_n] from a fresh
    estimator, the stored value is the weighted sum of the inputs in
    which the input from [k] steps ago has weight
    [factor * (1 - factor)^k] for every [k < n], and the first input
    [x_0] ([n] steps ago) has weight [(1 - factor)^n]. *)
Theorem ema_value_weighted_sum (a x0 : R) (rest : list R) :
  value (fst (updates (fresh a) (x0 :: rest))) =
    Some (weighted_sum (ema_weight a (length rest)) 0 (rev (x0 :: rest))) /\
  (forall k, (k < length rest)%nat ->
     ema_weight a (length rest) k = geometric_weight a k) /\
  ema_weight a (length rest) (length rest) = (1 - a) ^ length rest.
Proof.
  split; [apply ema_closed_form|]. split.
  - intros k Hk. unfold ema_weight, geometric_weight.
    destruct (Nat.eqb_spec k (length rest)) as [Heq|_]; [lia | reflexivity].
  - unfold ema_weight. rewrite Nat.eqb_refl. reflexivity.
Qed.

(** *** Boundedness *)

Definition stored_in_unit_interval (e : EMAScore) : Prop :=
  match value e with
  | None => True
  | Some v => unit_interval v
  end.

Lemma update_unit_interval (e : EMAScore) (x : R) :
  unit_interval (alpha e) -> stored_in_unit_interval e -> unit_interval x ->
  unit_interval (snd (update e x)) /\ stored_in_unit_interval (fst (update e x)).
Proof.
  unfold stored_in_unit_interval, unit_interval, update.
  intros Ha Hv Hx. cbn [fst snd value].
  destruct (value e) as [v|]; [|tauto].
  assert (0 <= alpha e * x + (1 - alpha e) * v <= 1) by nra.
  tauto.
Qed.

Lemma updates_unit_interval (e : EMAScore) (xs : list R) :
  unit_interval (alpha e) -> stored_in_unit_interval e ->
  Forall unit_interval xs ->
  Forall unit_interval (snd (updates e xs)) /\
  stored_in_unit_interval (fst (updates e xs)).
Proof.
  intros Ha He Hxs. revert e Ha He.
  induction Hxs as [|x xs Hx Hxs IH]; intros e Ha He.
  - split; [constructor | exact He].
  - cbn [updates].
    destruct (update_unit_interval e x Ha He Hx) as [Hr Hs].
    destruct (update e x) as [e1 r] eqn:Hup. cbn [fst snd] in Hr, Hs.
    assert (Ha1 : unit_interval (alpha e1)).
    { change e1 with (fst (e1, r)). rewrite <- Hup. exact Ha. }
    destruct (IH e1 Ha1 Hs) as [Hrs He2].
    destruct (updates e1 xs) as [e2 rs]. cbn [fst snd] in *.
    split; [constructor; assumption | exact He2].
Qed.

(** C10: with the smoothing factor in [0,1] and every input in [0,1],
    every value returned by [update] is in [0,1], and so is the value
    stored after the run; each update returns exactly what it stores. *)
Theorem ema_stays_in_unit_interval (a : R) (xs : list R) :
  unit_interval a -> Forall unit_interval xs ->
  Forall unit_interval (snd (updates (fresh a) xs)) /\
  (forall v, value (fst (updates (fresh a) xs)) = Some v -> unit_interval v) /\
  (forall e x, value (fst (update e x)) = Some (snd (update e x))).
Proof.
  intros Ha Hxs.
  destruct (updates_unit_interval (fresh a) xs Ha I Hxs) as [Hrs Hst].
  split; [exact Hrs|]. split.
  - intros v Hv. unfold stored_in_unit_interval in Hst.
    rewrite Hv in Hst. exact Hst.
  - intros e x. reflexivity.
Qed.

Lemma ema_stays_in_unit_interval_witness :
  Forall unit_interval (snd (updates (fresh (1 / 2)) [1; 0])) /\
  (forall v, value (fst (updates (fresh (1 / 2)) [1; 0])) = Some v ->
             unit_interval v) /\
  (forall e x, value (fst (update e x)) = Some (snd (update e x))).
Proof.
  apply (ema_stays_in_unit_interval (1 / 2) [1; 0]).
  - unfold unit_interval. lra.
  - repeat constructor; unfold unit_interval; lra.
Defined.

End EmaFacts.

(** ** bench/generate.py *)

Module Generate.
Import Py.

(** *** [normalize_text]

    Texts are strings of ASCII characters; Python's Unicode-aware
    classes and case mapping are modelled on that range only (a code
    above 127 is treated as outside every class). *)

Definition code_in (lo hi : nat) (c : ascii) : bool :=
  (lo <=? nat_of_ascii c)%nat && (nat_of_ascii c <=? hi)%nat.

(** [\s] and [str.isspace]: TAB..CR, FS..US and the blank. *)
Definition is_space (c : ascii) : bool :=
  code_in 9 13 c || code_in 28 32 c.

(** [\w]: letters, digits and the underscore. *)
Definition is_word (c : ascii) : bool :=
  code_in 48 57 c || code_in 65 90 c || code_in 97 122 c || code_in 95 95 c.

(** The punctuation kept by the second substitution:
    [. , ? ! : ; - ( ) [ ] /]. *)
Definition is_kept_punct (c : ascii) : bool :=
  existsb (Ascii.eqb c)
    ["."; ","; "?"; "!"; ":"; ";"; "-"; "("; ")"; "["; "]"; "/"]%char.

Definition lower_char (c : ascii) : ascii :=
  if code_in 65 90 c then ascii_of_nat (nat_of_ascii c + 32) else c.

(** [s.lower()] *)
Fixpoint lower (s : string) : string :=
  match s with
  | EmptyString => EmptyString
  | String c s' => String (lower_char c) (lower s')
  end.

(** [re.sub(r"\s+", " ", s)]; [in_run] tells that the previous
    character was whitespace already replaced. *)
Fixpoint collapse_from (in_run : bool) (s : string) : string :=
  match s with
  | EmptyString => EmptyString
  | String c s' =>
      if is_space c
      then (if in_run then collapse_from true s'
            else String " "%char (collapse_from true s'))
      else String c (collapse_from false s')
  end.

Definition collapse_whitespace (s : string) : string := collapse_from false s.

Fixpoint lstrip (s : string) : string :=
  match s with
  | EmptyString => EmptyString
  | String c s' => if is_space c then lstrip s' else s
  end.

Fixpoint rstrip (s : string) : string :=
  match s with
  | EmptyString => EmptyString
  | String c s' =>
      match rstrip s' with
      | EmptyString => if is_space c then EmptyString else String c EmptyString
      | r => String c r
      end
  end.

(** [s.strip()] *)
Definition strip (s : string) : string := rstrip (lstrip s).

(** [re.sub(r"[^\w\s\.\,\?\!\:\;\-\(\)\[\]\/]", "", s)] *)
Fixpoint keep_allowed (s : string) : string :=
  match s with
  | EmptyString => EmptyString
  | String c s' =>
      if is_word c || is_space c || is_kept_punct c
      then String c (keep_allowed s')
      else keep_allowed s'
  end.

Definition normalize_text (s : string) : string :=
  let s := lower s in
  let s := strip (collapse_whitespace s) in
  keep_allowed s.

(** *** The question record returned by the generator collaborator *)

Record Constraints : Type := mkConstraints {
  format : string;
  must_include : list string;
  must_avoid : list string
}.

Record QObj : Type := mkQObj {
  question : string;
  topic : string;
  difficulty : Z;
  skills : list string;
  constraints : Constraints
}.

(** The keyword arguments of [QuestionGenerator.generate]. *)
Record Request : Type := mkRequest {
  req_topic : option string;
  req_difficulty : Z;
  req_focus_skills : list string;
  req_avoid_recent : list string
}.

(** *** [NoveltyFilter] *)

Record NoveltyFilter : Type := mkNoveltyFilter {
  max_sim : Q;
  max_history : Z;
  _hashes : gset string;
  _texts : list string
}.

(** [NoveltyFilter(max_sim, max_history)], after [__post_init__]. *)
Definition new_filter (ms : Q) (mh : Z) : NoveltyFilter :=
  mkNoveltyFilter ms mh ∅ [].

(** [np.max] and [np.argmax] of a non-empty vector; [np.argmax] gives
    the first position of the maximum. *)
Fixpoint np_max_from (best : Q) (l : list Q) : Q :=
  match l with
  | [] => best
  | x :: l' => np_max_from (if Qle_bool x best then best else x) l'
  end.

Fixpoint np_argmax_from (best : Q) (best_i i : nat) (l : list Q) : nat :=
  match l with
  | [] => best_i
  | x :: l' =>
      if Qle_bool x best then np_argmax_from best best_i (S i) l'
      else np_argmax_from x i (S i) l'
  end.

Section WithLibraries.

(** [hashlib.sha256(b).hexdigest()] on the UTF-8 bytes of a text. *)
Variable sha256_hexdigest : string -> string.

(** The scikit-learn pipeline of [is_novel]: TF-IDF vectors over
    [history + [question]] with unigrams and bigrams, then the cosine
    similarity of the question to every history entry. It raises
    [ValueError] when the corpus has an empty vocabulary. *)
Variable tfidf_cosine : list string -> string -> outcome (list Q).

(** The generator collaborator: a language-model call, seen as a
    transition of an unknown state that yields one question record. *)
Variable GenState : Type.
Variable generate : GenState -> Request -> QObj * GenState.

Definition text_hash (s : string) : string :=
  sha256_hexdigest (normalize_text s).

Definition add (self : NoveltyFilter) (q : string) : NoveltyFilter :=
  let h := text_hash q in
  let hashes1 := _hashes self ∪ {[ h ]} in
  let texts1 := _texts self ++ [q] in
  if (max_history self <? Z.of_nat (length texts1))%Z then
    (* drop oldest *)
    match texts1 with
    | old :: rest =>
        mkNoveltyFilter (max_sim self) (max_history self)
          (hashes1 ∖ {[ text_hash old ]}) rest
    | [] => mkNoveltyFilter (max_sim self) (max_history self) hashes1 texts1
    end
  else mkNoveltyFilter (max_sim self) (max_history self) hashes1 texts1.

Definition seed (self : NoveltyFilter) (previous_questions : list string)
  : NoveltyFilter :=
  fold_left add (last_n previous_questions (max_history self)) self.

Definition novelty_info (hash_dup : bool) (ms : Q) (idx : option nat)
  : gmap string pyval :=
  {[ "hash_dup" := VBool hash_dup;
     "max_sim" := VFloat ms;
     "sim_to_index" := match idx with
                       | None => VNone
                       | Some i => VInt (Z.of_nat i)
                       end ]}.

Definition is_novel (self : NoveltyFilter) (q : string)
  : outcome (bool * gmap string pyval) :=
  let h := text_hash q in
  if decide (h ∈ _hashes self) then
    Returns (false, novelty_info true 1 None)
  else
    match _texts self with
    | [] => Returns (true, novelty_info false 0 None)
    | _ :: _ =>
        bind (tfidf_cosine (_texts self) q) (fun sims =>
          let '(m, idx) :=
            match sims with
            | [] => (0 : Q, None)
            | x :: l => (np_max_from x l, Some (np_argmax_from x 0 1 l))
            end in
          if Qle_bool (max_sim self) m
          then Returns (false, novelty_info false m idx)
          else Returns (true, novelty_info false m idx))
    end.

(** [generate_novel_question]: the outcome carries the question record,
    the novelty info, and the states of the two objects it mutates.
    [regen k] runs the remaining [k] passes of the [for] loop and then
    the statements after it. *)
Fixpoint regen (k : nat) (req : Request) (gen : GenState)
    (novelty : NoveltyFilter) (last_info : gmap string pyval)
  : outcome (QObj * gmap string pyval * GenState * NoveltyFilter) :=
  match k with
  | S k' =>
      let '(qobj, gen1) := generate gen req in
      let qtext := strip (question qobj) in
      bind (is_novel novelty qtext) (fun '(ok, info) =>
        if ok : bool
        then Returns (qobj, info, gen1, add novelty qtext)
        else regen k' req gen1 novelty info)
  | O =>
      (* if still not novel, return the last and mark it *)
      let '(qobj, gen1) := generate gen req in
      Returns (qobj, last_info ∪ {[ "forced" := VBool true ]}, gen1, novelty)
  end.

Definition generate_novel_question (gen : GenState) (novelty : NoveltyFilter)
    (req : Request) (max_regen : Z)
  : outcome (QObj * gmap string pyval * GenState * NoveltyFilter) :=
  regen (Z.to_nat max_regen) req gen novelty ∅.

(** A history of [seed] and [add] calls on one filter. *)
Inductive op : Type :=
| OpSeed (previous_questions : list string)
| OpAdd (q : string).

Definition run_op (self : NoveltyFilter) (o : op) : NoveltyFilter :=
  match o with
  | OpSeed l => seed self l
  | OpAdd q => add self q
  end.

Definition run_ops (self : NoveltyFilter) (ops : list op) : NoveltyFilter :=
  fold_left run_op ops self.

(** The image of the stored texts under [text_hash]. *)
Definition fingerprints (self : NoveltyFilter) : gset string :=
  list_to_set (text_hash <$> _texts self).

(** *** What [add] does, by cases on the capacity test *)

Lemma add_cases (self : NoveltyFilter) (q : string) :
  ((Z.of_nat (length (_texts self)) < max_history self)%Z /\
   add self q =
     mkNoveltyFilter (max_sim self) (max_history self)
       (_hashes self ∪ {[ text_hash q ]}) (_texts self ++ [q]))
  \/
  ((max_history self <= Z.of_nat (length (_texts self)))%Z /\
   exists old rest,
     _texts self ++ [q] = old :: rest /\
     add self q =
       mkNoveltyFilter (max_sim self) (max_history self)
         ((_hashes self ∪ {[ text_hash q ]}) ∖ {[ text_hash old ]}) rest).
Proof.
  unfold add. rewrite length_app. cbn [length].
  destruct (Z.ltb_spec (max_history self)
              (Z.of_nat (length (_texts self) + 1))) as [Hlt|Hge].
  - right. split; [lia|].
    destruct (_texts self ++ [q]) as [|old rest] eqn:Happ.
    + destruct (_texts self); discriminate Happ.
    + exists old, rest. split; reflexivity.
  - left. split; [lia | reflexivity].
Qed.

Lemma add_config (self : NoveltyFilter) (q : string) :
  max_history (add self q) = max_history self /\
  max_sim (add self q) = max_sim self.
Proof.
  destruct (add_cases self q) as [[_ ->]|[_ (old & rest & _ & ->)]];
    split; reflexivity.
Qed.

Lemma fold_add_config (l : list string) (self : NoveltyFilter) :
  max_history (fold_left add l self) = max_history self /\
  max_sim (fold_left add l self) = max_sim self.
Proof.
  revert self. induction l as [|q l IH]; intros self; [split; reflexivity|].
  cbn [fold_left]. destruct (IH (add self q)) as [-> ->]. apply add_config.
Qed.

Lemma run_ops_config (ops : list op) (self : NoveltyFilter) :
  max_history (run_ops self ops) = max_history self /\
  max_sim (run_ops self ops) = max_sim self.
Proof.
  unfold run_ops. revert self.
  induction ops as [|o ops IH]; intros self; [split; reflexivity|].
  cbn [fold_left]. destruct (IH (run_op self o)) as [-> ->].
  destruct o as [l|q]; [apply fold_add_config | apply add_config].
Qed.

(** *** Invariants of the filter under [add], [seed] and their runs *)

(** A property of filters kept by [add] is kept by every run. *)
Lemma run_ops_invariant (P : NoveltyFilter -> Prop) :
  (forall self q, P self -> P (add self q)) ->
  forall ops self, P self -> P (run_ops self ops).
Proof.
  intros Hadd. unfold run_ops.
  assert (Hfold : forall l self, P self -> P (fold_left add l self)).
  { induction l as [|q l IH]; intros self HP; [exact HP|].
    cbn [fold_left]. apply IH, Hadd, HP. }
  induction ops as [|o ops IH]; intros self HP; [exact HP|].
  cbn [fold_left]. apply IH.
  destruct o as [l|q]; [apply Hfold, HP | apply Hadd, HP].
Qed.

Definition within_capacity (self : NoveltyFilter) : Prop :=
  (Z.of_nat (length (_texts self)) <= max_history self)%Z.

Lemma add_within_capacity (self : NoveltyFilter) (q : string) :
  within_capacity self -> within_capacity (add self q).
Proof.
  unfold within_capacity. intros Hcap.
  destruct (add_cases self q) as [[Hlt ->]|[Hge (old & rest & Happ & ->)]];
    cbn [_texts max_history].
  - rewrite length_app. cbn [length]. lia.
  - apply (f_equal length) in Happ. rewrite length_app in Happ.
    cbn [length] in Happ. lia.
Qed.

Definition hashes_of_stored_texts (self : NoveltyFilter) : Prop :=
  _hashes self ⊆ fingerprints self.

Lemma image_after_append (texts rest : list string) (q old : string) :
  texts ++ [q] = old :: rest ->
  forall x : string,
    x ∈ (list_to_set (text_hash <$> texts) : gset string) ∪ {[ text_hash q ]} <->
    x = text_hash old \/ x ∈ (list_to_set (text_hash <$> rest) : gset string).
Proof.
  intros Happ x.
  assert (Himg : (list_to_set (text_hash <$> texts ++ [q]) : gset string)
                 = {[ text_hash old ]} ∪ list_to_set (text_hash <$> rest)).
  { rewrite Happ. reflexivity. }
  rewrite fmap_app, list_to_set_app_L in Himg. cbn in Himg.
  rewrite union_empty_r_L in Himg. rewrite Himg.
  rewrite elem_of_union, elem_of_singleton. reflexivity.
Qed.

Lemma add_hashes_of_stored_texts (self : NoveltyFilter) (q : string) :
  hashes_of_stored_texts self -> hashes_of_stored_texts (add self q).
Proof.
  unfold hashes_of_stored_texts, fingerprints. intros Hsub.
  destruct (add_cases self q) as [[_ ->]|[_ (old & rest & Happ & ->)]];
    cbn [_texts _hashes].
  - rewrite fmap_app, list_to_set_app_L. cbn. set_solver.
  - intros x Hx. apply elem_of_difference in Hx as [Hx Hnold].
    rewrite elem_of_singleton in Hnold.
    assert (Hx' : x ∈ (list_to_set (text_hash <$> _texts self) : gset string)
                      ∪ {[ text_hash q ]}) by set_solver.
    apply (image_after_append _ _ _ _ Happ) in Hx' as [Hx'|Hx'];
      [contradiction | exact Hx'].
Qed.

(** The evicted text's fingerprint leaves the set, whatever else is
    stored. *)
Lemma add_evicts_fingerprint (self : NoveltyFilter) (q old : string)
    (rest : list string) :
  (max_history self <= Z.of_nat (length (_texts self)))%Z ->
  _texts self ++ [q] = old :: rest ->
  _texts (add self q) = rest /\ (text_hash old ∉ _hashes (add self q)).
Proof.
  intros Hfull Happ.
  destruct (add_cases self q) as [[Hlt _]|[_ (old' & rest' & Happ' & ->)]];
    [lia|].
  rewrite Happ in Happ'. injection Happ' as <- <-.
  cbn [_texts _hashes]. split; [reflexivity | set_solver].
Qed.

(** Set and history agree as long as the stored fingerprints are
    pairwise distinct, which [add] keeps when it is only called on a
    text whose fingerprint is not in the set. *)
Definition in_sync (self : NoveltyFilter) : Prop :=
  NoDup (text_hash <$> _texts self) /\ _hashes self = fingerprints self.

Lemma add_in_sync (self : NoveltyFilter) (q : string) :
  in_sync self -> text_hash q ∉ _hashes self -> in_sync (add self q).
Proof.
  unfold in_sync, fingerprints. intros [Hnd Heq] Hnew.
  assert (Hnd1 : NoDup (text_hash <$> _texts self ++ [q])).
  { rewrite fmap_app. apply NoDup_app. split; [exact Hnd|]. split.
    - intros x Hx Hq. cbn in Hq. apply list_elem_of_singleton in Hq. subst x.
      apply Hnew. rewrite Heq. apply elem_of_list_to_set. exact Hx.
    - cbn. apply NoDup_singleton. }
  destruct (add_cases self q) as [[_ ->]|[_ (old & rest & Happ & ->)]];
    cbn [_texts _hashes].
  - split; [exact Hnd1|].
    rewrite fmap_app, list_to_set_app_L, Heq. cbn. set_solver.
  - rewrite Happ in Hnd1. cbn in Hnd1. apply NoDup_cons in Hnd1 as [Hold Hrest].
    split; [exact Hrest|].
    apply set_eq. intros x.
    rewrite elem_of_difference, elem_of_singleton, Heq.
    rewrite (image_after_append _ _ _ _ Happ x).
    split.
    + intros [[Hx|Hx] Hne]; [contradiction | exact Hx].
    + intros Hx. split; [right; exact Hx|].
      intros ->. apply Hold. apply elem_of_list_to_set in Hx. exact Hx.
Qed.

(** From a new filter with a non-negative capacity, every run of [seed]
    and [add] keeps the history within the capacity and stores only
    fingerprints of texts still in the history. *)
Lemma run_ops_bounded (ms : Q) (mh : Z) (ops : list op) :
  (0 <= mh)%Z ->
  within_capacity (run_ops (new_filter ms mh) ops) /\
  hashes_of_stored_texts (run_ops (new_filter ms mh) ops).
Proof.
  intros Hmh. split.
  - apply (run_ops_invariant within_capacity); [apply add_within_capacity|].
    unfold within_capacity. cbn. exact Hmh.
  - apply (run_ops_invariant hashes_of_stored_texts);
      [apply add_hashes_of_stored_texts|].
    unfold hashes_of_stored_texts, fingerprints. cbn. set_solver.
Qed.

(** *** [is_novel] right after [add] *)

Lemma is_novel_exact_duplicate (self : NoveltyFilter) (q : string) :
  text_hash q ∈ _hashes self ->
  is_novel self q = Returns (false, novelty_info true 1 None).
Proof.
  intros Hin. unfold is_novel. destruct (decide _) as [_|Hn]; [reflexivity|].
  contradiction.
Qed.

Lemma novelty_info_hash_dup (b : bool) (m : Q) (idx : option nat) :
  novelty_info b m idx !! "hash_dup" = Some (VBool b) /\
  novelty_info b m idx !! "forced" = None.
Proof. split; reflexivity. Qed.

Lemma is_novel_not_in_set (self : NoveltyFilter) (q : string) :
  text_hash q ∉ _hashes self ->
  forall ok info,
    is_novel self q = Returns (ok, info) ->
    info !! "hash_dup" = Some (VBool false) /\ info !! "forced" = None.
Proof.
  intros Hnot ok info. unfold is_novel.
  destruct (decide _) as [Hin|_]; [contradiction|].
  destruct (_texts self) as [|t ts].
  - intros [= <- <-]. apply novelty_info_hash_dup.
  - destruct (tfidf_cosine (t :: ts) q) as [sims|e]; cbn [bind];
      [|discriminate].
    destruct (match sims with
              | [] => (0 : Q, None)
              | x :: l => (np_max_from x l, Some (np_argmax_from x 0 1 l))
              end) as [m idx].
    destruct (Qle_bool (max_sim self) m); intros [= <- <-];
      apply novelty_info_hash_dup.
Qed.

Lemma is_novel_info_unforced (self : NoveltyFilter) (q : string) ok info :
  is_novel self q = Returns (ok, info) -> info !! "forced" = None.
Proof.
  destruct (decide (text_hash q ∈ _hashes self)) as [Hin|Hnot].
  - rewrite is_novel_exact_duplicate by exact Hin.
    intros [= <- <-]. reflexivity.
  - intros H. apply (is_novel_not_in_set self q Hnot ok info H).
Qed.

(** When [add] keeps the new fingerprint (no eviction, or an evicted
    text with another fingerprint), the text is reported as an exact
    duplicate. *)
Lemma is_novel_after_add_kept (self : NoveltyFilter) (q : string) :
  ((Z.of_nat (length (_texts self)) < max_history self)%Z \/
   (exists old rest, _texts self = old :: rest /\ text_hash old <> text_hash q)) ->
  is_novel (add self q) q = Returns (false, novelty_info true 1 None).
Proof.
  intros Hkept. apply is_novel_exact_duplicate.
  destruct (add_cases self q) as [[_ ->]|[Hge (old & rest & Happ & ->)]];
    cbn [_hashes]; [set_solver|].
  destruct Hkept as [Hlt|(old' & rest' & Htexts & Hne)]; [lia|].
  rewrite Htexts in Happ. cbn in Happ. injection Happ as <- _.
  set_solver.
Qed.

(** *** The retry loop *)

(** Every call returns unless the similarity pipeline raises; the info
    either carries ["forced"] and the filter is left as it was, or it
    does not and the returned question's text was added. *)
Lemma regen_outcome (k : nat) (req : Request) (gen : GenState)
    (novelty : NoveltyFilter) (last_info : gmap string pyval)
    qobj info gen' novelty' :
  last_info !! "forced" = None ->
  regen k req gen novelty last_info = Returns (qobj, info, gen', novelty') ->
  (info !! "forced" = Some (VBool true) /\ novelty' = novelty) \/
  (info !! "forced" = None /\ novelty' = add novelty (strip (question qobj))).
Proof.
  revert gen last_info. induction k as [|k IH]; intros gen last_info Hlast.
  - cbn [regen]. destruct (generate gen req) as [q g1].
    intros [= <- <- <- <-]. left. split; [|reflexivity].
    rewrite lookup_union_r by exact Hlast. reflexivity.
  - cbn [regen]. destruct (generate gen req) as [q g1].
    destruct (is_novel novelty (strip (question q))) as [[ok inf]|e] eqn:Hnov;
      cbn [bind]; [|discriminate].
    pose proof (is_novel_info_unforced _ _ _ _ Hnov) as Hunf.
    destruct ok.
    + intros [= <- <- <- <-]. right. split; [exact Hunf | reflexivity].
    + apply IH. exact Hunf.
Qed.

End WithLibraries.

(** A generator collaborator that replays a fixed script of replies,
    one per call, and answers with a fallback record once the script is
    over. *)
Definition scripted (fallback : QObj) (script : list QObj) (_ : Request)
  : QObj * list QObj :=
  match script with
  | [] => (fallback, [])
  | q :: rest => (q, rest)
  end.

Definition no_constraints : Constraints := mkConstraints "short essay" [] [].

Definition asks (text : string) : QObj :=
  mkQObj text "arithmetic" 2 ["analysis"] no_constraints.

Section Scenarios.

Variable sha256_hexdigest : string -> string.
Variable tfidf_cosine : list string -> string -> outcome (list Q).

Local Abbreviation text_hash := (text_hash sha256_hexdigest).
Local Abbreviation add := (add sha256_hexdigest).
Local Abbreviation is_novel := (is_novel sha256_hexdigest tfidf_cosine).
Local Abbreviation run_ops := (run_ops sha256_hexdigest).
Local Abbreviation fingerprints := (fingerprints sha256_hexdigest).

(** With a generator whose first replies are all exact duplicates of
    the history, the loop uses up its budget and returns the next
    reply, marked as forced, without touching the filter. *)
Lemma regen_scripted_duplicates (req : Request) (novelty : NoveltyFilter)
    (fallback final : QObj) (dups : list QObj) (last_info : gmap string pyval) :
  Forall (fun q => text_hash (strip (question q)) ∈ _hashes novelty) dups ->
  regen sha256_hexdigest tfidf_cosine (list QObj) (scripted fallback)
    (length dups) req (dups ++ [final]) novelty last_info =
  Returns (final,
           (match dups with
            | [] => last_info
            | _ :: _ => novelty_info true 1 None
            end) ∪ {[ "forced" := VBool true ]},
           [], novelty).
Proof.
  intros Hdups. revert last_info.
  induction Hdups as [|q dups Hq Hdups IH]; intros last_info.
  - reflexivity.
  - cbn [length app regen scripted].
    rewrite (is_novel_exact_duplicate _ _ _ _ Hq). cbn [bind].
    rewrite IH. destruct dups; reflexivity.
Qed.

Lemma add_to_new_filter (ms : Q) (mh : Z) (t : string) :
  (0 < mh)%Z ->
  add (new_filter ms mh) t
  = mkNoveltyFilter ms mh (∅ ∪ {[ text_hash t ]}) [t].
Proof.
  intros Hmh.
  destruct (add_cases sha256_hexdigest (new_filter ms mh) t)
    as [[_ ->]|[Hge _]]; [reflexivity | cbn in Hge; lia].
Qed.

Lemma capacity_one_add_twice (ms : Q) (t : string) :
  _texts (add (add (new_filter ms 1) t) t) = [t] /\
  _hashes (add (add (new_filter ms 1) t) t) = ∅.
Proof.
  rewrite add_to_new_filter by lia.
  destruct (add_cases sha256_hexdigest
              (mkNoveltyFilter ms 1 (∅ ∪ {[ text_hash t ]}) [t]) t)
    as [[Hlt _]|[_ (old & rest & Happ & ->)]]; [cbn in Hlt; lia|].
  cbn in Happ. injection Happ as <- <-. cbn [_hashes _texts].
  split; [reflexivity|].
  apply set_eq. intros x.
  rewrite elem_of_difference, !elem_of_union, elem_of_singleton.
  split; [tauto|]. intros Hx. apply not_elem_of_empty in Hx. contradiction.
Qed.

(** C1, evaluated on the code: the history holds "What is 2+2?", the
    generator repeats it for all six attempts and then proposes another
    question. The call returns that last question with
    [forced = True], but the filter is returned exactly as it was: the
    forced question is not registered, so unless the two texts share a
    fingerprint a later [is_novel] of it does not report an exact
    duplicate. *)
Theorem forced_question_is_not_registered (req : Request) (fallback : QObj) :
  generate_novel_question sha256_hexdigest tfidf_cosine
    (list QObj) (scripted fallback)
    (replicate 6 (asks "What is 2+2?")
       ++ [asks "Explain photosynthesis in plants."])
    (add (new_filter 0.88 5000) "What is 2+2?") req 6
  = Returns (asks "Explain photosynthesis in plants.",
             novelty_info true 1 None ∪ {[ "forced" := VBool true ]},
             [],
             add (new_filter 0.88 5000) "What is 2+2?")
  /\ (novelty_info true 1 None ∪ {[ "forced" := VBool true ]} : gmap string pyval)
       !! "forced" = Some (VBool true)
  /\ _texts (add (new_filter 0.88 5000) "What is 2+2?") = ["What is 2+2?"]
  /\ (text_hash "Explain photosynthesis in plants." <> text_hash "What is 2+2?" ->
      (text_hash "Explain photosynthesis in plants."
         ∉ _hashes (add (new_filter 0.88 5000) "What is 2+2?")) /\
      is_novel (add (new_filter 0.88 5000) "What is 2+2?")
        "Explain photosynthesis in plants."
      <> Returns (false, novelty_info true 1 None)).
Proof.
  rewrite (add_to_new_filter 0.88 5000 "What is 2+2?") by lia.
  assert (Hin : text_hash "What is 2+2?"
                ∈ _hashes (mkNoveltyFilter 0.88 5000
                             (∅ ∪ {[ text_hash "What is 2+2?" ]})
                             ["What is 2+2?"])).
  { cbn [_hashes]. apply elem_of_union_r, elem_of_singleton. reflexivity. }
  split; [|split; [reflexivity|split; [reflexivity|]]].
  - unfold generate_novel_question.
    change (Z.to_nat 6) with (length (replicate 6 (asks "What is 2+2?"))).
    rewrite regen_scripted_duplicates; [reflexivity|].
    repeat constructor; exact Hin.
  - intros Hne.
    assert (Hout : text_hash "Explain photosynthesis in plants."
                   ∉ _hashes (mkNoveltyFilter 0.88 5000
                                (∅ ∪ {[ text_hash "What is 2+2?" ]})
                                ["What is 2+2?"])).
    { cbn [_hashes]. rewrite elem_of_union, elem_of_singleton.
      intros [Hx|Hx]; [apply not_elem_of_empty in Hx; exact Hx | exact (Hne Hx)]. }
    split; [exact Hout|].
    intros Heq.
    destruct (is_novel_not_in_set _ _ _ _ Hout _ _ Heq) as [Hdup _].
    discriminate Hdup.
Qed.

(** C2, evaluated on the code: on a filter of capacity 1, adding the
    same text twice evicts the first copy and discards the fingerprint
    the second copy still needs; the history is [[t]] and the
    fingerprint set is empty, not the image of the history. Seeding with
    the text and adding it once more ends in the same state. *)
Theorem duplicate_eviction_loses_fingerprint (ms : Q) (t : string) :
  _texts (run_ops (new_filter ms 1) [OpAdd t; OpAdd t]) = [t] /\
  _hashes (run_ops (new_filter ms 1) [OpAdd t; OpAdd t]) = ∅ /\
  fingerprints (run_ops (new_filter ms 1) [OpAdd t; OpAdd t])
    = {[ text_hash t ]} /\
  _hashes (run_ops (new_filter ms 1) [OpAdd t; OpAdd t])
    <> fingerprints (run_ops (new_filter ms 1) [OpAdd t; OpAdd t]) /\
  run_ops (new_filter ms 1) [OpSeed [t]; OpAdd t]
    = run_ops (new_filter ms 1) [OpAdd t; OpAdd t].
Proof.
  change (run_ops (new_filter ms 1) [OpAdd t; OpAdd t])
    with (add (add (new_filter ms 1) t) t).
  destruct (capacity_one_add_twice ms t) as [Ht Hh].
  assert (Hf : fingerprints (add (add (new_filter ms 1) t) t)
               = {[ text_hash t ]}).
  { unfold Generate.fingerprints. rewrite Ht. cbn. apply union_empty_r_L. }
  repeat split; try assumption.
  rewrite Hh, Hf. intros Heq.
  assert (Hin : text_hash t ∈ (∅ : gset string)).
  { rewrite Heq. apply elem_of_singleton. reflexivity. }
  apply not_elem_of_empty in Hin. exact Hin.
Qed.

(** C8, evaluated on the code: on a filter of capacity 1 that already
    holds [t], [add t] evicts the stored copy and with it the
    fingerprint just inserted, so the [is_novel t] that follows does not
    take the exact-duplicate exit: whatever it returns has
    [hash_dup = False]. *)
Theorem is_novel_after_add_misses_duplicate (ms : Q) (t : string) :
  _texts (add (new_filter ms 1) t) = [t] /\
  (text_hash t ∉ _hashes (add (add (new_filter ms 1) t) t)) /\
  is_novel (add (add (new_filter ms 1) t) t) t
    <> Returns (false, novelty_info true 1 None) /\
  (forall ok info,
     is_novel (add (add (new_filter ms 1) t) t) t = Returns (ok, info) ->
     info !! "hash_dup" = Some (VBool false)).
Proof.
  destruct (capacity_one_add_twice ms t) as [_ Hh].
  assert (Hout : text_hash t ∉ _hashes (add (add (new_filter ms 1) t) t)).
  { rewrite Hh. apply not_elem_of_empty. }
  split; [rewrite add_to_new_filter by lia; reflexivity|].
  split; [exact Hout|]. split.
  - intros Heq.
    destruct (is_novel_not_in_set _ _ _ _ Hout _ _ Heq) as [Hdup _].
    discriminate Hdup.
  - intros ok info Heq.
    apply (is_novel_not_in_set _ _ _ _ Hout _ _ Heq).
Qed.

End Scenarios.

End Generate.

(** ** bench/evolve.py *)

Module Evolve.
Import Py.

(** An evaluation record as the policy reads it: the tags and the
    subscores, the latter in the order of the dictionary's items. *)
Record EvalRecord : Type := mkEval {
  score : Q;
  subscores : list (string * Q);
  error_tags : list string
}.

Record EvolutionPolicy : Type := mkPolicy {
  window : Z;
  focus_top_k_tags : Z;
  difficulty_min : Z;
  difficulty_max : Z
}.

(** [EvolutionPolicy()] with the dataclass defaults. *)
Definition default_policy : EvolutionPolicy := mkPolicy 30 3 1 5.

(** [collections.Counter]: a dictionary of counts, kept here as the
    list of its items in insertion order. Counting an element bumps its
    entry in place or appends a new entry. *)
Fixpoint counter_incr (t : string) (c : list (string * nat))
  : list (string * nat) :=
  match c with
  | [] => [(t, 1%nat)]
  | (k, n) :: c' =>
      if decide (k = t) then (k, S n) :: c' else (k, n) :: counter_incr t c'
  end.

Definition Counter (items : list string) : list (string * nat) :=
  fold_left (fun c t => counter_incr t c) items [].

(** [sorted(items, key=itemgetter(1), reverse=True)]: Python's sort is
    stable, also with [reverse=True]; modelled by stable insertion. *)
Fixpoint insert_desc (x : string * nat) (l : list (string * nat))
  : list (string * nat) :=
  match l with
  | [] => [x]
  | y :: l' =>
      if (snd y <=? snd x)%nat then x :: y :: l' else y :: insert_desc x l'
  end.

Definition sorted_by_count_desc (c : list (string * nat))
  : list (string * nat) :=
  foldr insert_desc [] c.

(** [Counter.most_common(n)] is [heapq.nlargest(n, items, key=count)],
    which is [sorted(items, key=count, reverse=True)[:n]] for [n >= 0]
    and the empty list for a negative [n]. *)
Definition most_common (n : Z) (c : list (string * nat))
  : list (string * nat) :=
  take (Z.to_nat n) (sorted_by_count_desc c).

Definition skill_map : list (string * string) :=
  [ ("correctness", "structured reasoning");
    ("completeness", "constraint following");
    ("reasoning_quality", "structured reasoning");
    ("format_compliance", "constraint following");
    ("safety", "robustness / uncertainty") ].

(** [skill_map.get(s, s)] *)
Definition skill_of (s : string) : string :=
  match List.find (fun kv => String.eqb (fst kv) s) skill_map with
  | Some kv => snd kv
  | None => s
  end.

(** The subscore names of one record whose value is below 0.6, except
    the safety dimension. *)
Definition low_subscores (e : EvalRecord) : list string :=
  map fst
    (List.filter
       (fun kv => negb (Qle_bool 0.6 (snd kv)) && negb (String.eqb (fst kv) "safety"))
       (subscores e)).

Definition recent_records (self : EvolutionPolicy)
    (eval_history : list EvalRecord) : list EvalRecord :=
  match eval_history with
  | [] => []
  | _ :: _ => last_n eval_history (window self)
  end.

(** [next_focus]: the pair [(focus_skills, top_tags)]. *)
Definition next_focus (self : EvolutionPolicy)
    (eval_history : list EvalRecord) : list string * list string :=
  let recent := recent_records self eval_history in
  let tags := flat_map error_tags recent in
  let low_subskills := flat_map low_subscores recent in
  let top_tags := map fst (most_common (focus_top_k_tags self) (Counter tags)) in
  let top_subs := map fst (most_common 3 (Counter low_subskills)) in
  let focus_skills := map skill_of top_subs in
  match focus_skills with
  | [] => (["mixed reasoning and analysis"], top_tags)
  | _ :: _ => (focus_skills, top_tags)
  end.

Definition adjust_difficulty (self : EvolutionPolicy) (current : Z)
    (ema_value : Q) : Z :=
  let nxt :=
    if Qle_bool 0.82 ema_value then (current + 1)%Z
    else if Qle_bool ema_value 0.62 then (current - 1)%Z
    else current in
  Z.max (difficulty_min self) (Z.min (difficulty_max self) nxt).

(** Consecutive adjustments, one per trend value. *)
Definition adjust_many (self : EvolutionPolicy) (current : Z)
    (trend : list Q) : Z :=
  fold_left (adjust_difficulty self) trend current.

(** *** The specification's vocabulary *)

(** How often a tag occurs. *)
Fixpoint frequency (tags : list string) (t : string) : nat :=
  match tags with
  | [] => 0
  | x :: l => if decide (x = t) then S (frequency l t) else frequency l t
  end.

(** The position at which a tag is first seen (the length of the list
    for a tag that does not occur). *)
Fixpoint first_seen (tags : list string) (t : string) : nat :=
  match tags with
  | [] => 0
  | x :: l => if decide (x = t) then 0 else S (first_seen l t)
  end.

(** [a] is ranked before [b]: more frequent, or as frequent and seen
    first. *)
Definition ranks_before (tags : list string) (a b : string) : Prop :=
  (frequency tags b < frequency tags a)%nat \/
  (frequency tags a = frequency tags b /\
   (first_seen tags a < first_seen tags b)%nat).

(** The [n] most recent entries of a history (all of it when it is
    shorter). *)
Definition most_recent {A : Type} (n : nat) (history : list A) : list A :=
  drop (length history - n) history.

(** The error tags of the window, in the order they were recorded. *)
Definition recent_tags (self : EvolutionPolicy)
    (eval_history : list EvalRecord) : list string :=
  flat_map error_tags (most_recent (Z.to_nat (window self)) eval_history).

(** [r] is [x] clamped into [[lo, hi]]. *)
Definition clamped (lo hi x r : Z) : Prop :=
  (lo <= r <= hi)%Z /\
  ((lo <= x <= hi)%Z -> r = x) /\
  ((x < lo)%Z -> r = lo) /\
  ((hi < x)%Z -> r = hi).

End Evolve.

(** ** Properties of bench/evolve.py *)

Module EvolveFacts.
Import Py Evolve.

(** *** Difficulty adjustment *)

Lemma clamp_clamped (lo hi x : Z) :
  (lo <= hi)%Z -> clamped lo hi x (Z.max lo (Z.min hi x)).
Proof. unfold clamped. intros Hle. repeat split; lia. Qed.

Lemma adjust_difficulty_raise (p : EvolutionPolicy) (current : Z) (v : Q) :
  (0.82 <= v)%Q ->
  adjust_difficulty p current v
  = Z.max (difficulty_min p) (Z.min (difficulty_max p) (current + 1)).
Proof.
  intros Hv. unfold adjust_difficulty.
  apply Qle_bool_iff in Hv. rewrite Hv. reflexivity.
Qed.

Lemma adjust_difficulty_lower (p : EvolutionPolicy) (current : Z) (v : Q) :
  (v <= 0.62)%Q ->
  adjust_difficulty p current v
  = Z.max (difficulty_min p) (Z.min (difficulty_max p) (current - 1)).
Proof.
  intros Hv. unfold adjust_difficulty.
  destruct (Qle_bool 0.82 v) eqn:Hhi.
  - apply Qle_bool_iff in Hhi.
    assert (Hc : (0.82 <= 0.62)%Q) by (eapply Qle_trans; eassumption).
    exfalso. revert Hc. unfold Qle. cbn. lia.
  - apply Qle_bool_iff in Hv. rewrite Hv. reflexivity.
Qed.

Lemma adjust_difficulty_keep (p : EvolutionPolicy) (current : Z) (v : Q) :
  (0.62 < v)%Q -> (v < 0.82)%Q ->
  adjust_difficulty p current v
  = Z.max (difficulty_min p) (Z.min (difficulty_max p) current).
Proof.
  intros Hlo Hhi. unfold adjust_difficulty.
  destruct (Qle_bool 0.82 v) eqn:H1.
  - apply Qle_bool_iff in H1. exfalso. apply (Qlt_not_le _ _ Hhi H1).
  - destruct (Qle_bool v 0.62) eqn:H2; [|reflexivity].
    apply Qle_bool_iff in H2. exfalso. apply (Qlt_not_le _ _ Hlo H2).
Qed.

Lemma adjust_difficulty_bounds (p : EvolutionPolicy) (current : Z) (v : Q) :
  (difficulty_min p <= difficulty_max p)%Z ->
  (difficulty_min p <= adjust_difficulty p current v <= difficulty_max p)%Z.
Proof. intros Hle. unfold adjust_difficulty. lia. Qed.

Lemma adjust_many_bounds (p : EvolutionPolicy) (trend : list Q) (current : Z) :
  (difficulty_min p <= difficulty_max p)%Z ->
  (difficulty_min p <= current <= difficulty_max p)%Z ->
  (difficulty_min p <= adjust_many p current trend <= difficulty_max p)%Z.
Proof.
  intros Hle. unfold adjust_many. revert current.
  induction trend as [|v trend IH]; intros current Hcur; [exact Hcur|].
  cbn [fold_left]. apply IH, adjust_difficulty_bounds, Hle.
Qed.

(** C7: [adjust_difficulty] moves the difficulty up by one when the
    trend is at least 0.82, down by one when it is at most 0.62, and
    leaves it alone in between, then clamps into
    [[difficulty_min, difficulty_max]]; with the defaults [[1, 5]],
    [(3, 0.82)] gives 4, [(3, 0.62)] gives 2 and [(3, 0.7)] gives 3; and
    any number of consecutive adjustments ends within the bounds. *)
Theorem adjust_difficulty_hysteresis (p : EvolutionPolicy) (current : Z) (v : Q) :
  (difficulty_min p <= difficulty_max p)%Z ->
  ((0.82 <= v)%Q ->
     clamped (difficulty_min p) (difficulty_max p) (current + 1)
       (adjust_difficulty p current v)) /\
  ((v <= 0.62)%Q ->
     clamped (difficulty_min p) (difficulty_max p) (current - 1)
       (adjust_difficulty p current v)) /\
  ((0.62 < v)%Q -> (v < 0.82)%Q ->
     clamped (difficulty_min p) (difficulty_max p) current
       (adjust_difficulty p current v)) /\
  (adjust_difficulty default_policy 3 0.82 = 4 /\
   adjust_difficulty default_policy 3 0.62 = 2 /\
   adjust_difficulty default_policy 3 0.7 = 3)%Z /\
  (forall trend : list Q,
     trend <> [] \/ (difficulty_min p <= current <= difficulty_max p)%Z ->
     (difficulty_min p <= adjust_many p current trend <= difficulty_max p)%Z).
Proof.
  intros Hle.
  split; [|split; [|split; [|split]]].
  - intros Hv. rewrite adjust_difficulty_raise by exact Hv.
    apply clamp_clamped, Hle.
  - intros Hv. rewrite adjust_difficulty_lower by exact Hv.
    apply clamp_clamped, Hle.
  - intros Hlo Hhi. rewrite adjust_difficulty_keep by assumption.
    apply clamp_clamped, Hle.
  - repeat split; reflexivity.
  - intros trend Hstart.
    destruct trend as [|v0 trend].
    + destruct Hstart as [Hne|Hin]; [contradiction | exact Hin].
    + unfold adjust_many. cbn [fold_left].
      apply (adjust_many_bounds p trend _ Hle),
            adjust_difficulty_bounds, Hle.
Qed.

Lemma adjust_difficulty_hysteresis_witness :
  clamped 1 5 (5 + 1) (adjust_difficulty default_policy 5 0.9) /\
  (difficulty_min default_policy
     <= adjust_many default_policy 5 [0.9%Q; 0.9%Q; 0.1%Q]
     <= difficulty_max default_policy)%Z.
Proof.
  pose proof (adjust_difficulty_hysteresis default_policy 5 0.9) as H.
  destruct H as (Hup & _ & _ & _ & Hmany); [cbn; lia|].
  split.
  - apply Hup. unfold Qle. cbn. lia.
  - apply Hmany. left. discriminate.
Defined.

(** *** Frequencies and first occurrences *)

Lemma frequency_app (p q : list string) (t : string) :
  frequency (p ++ q) t = (frequency p t + frequency q t)%nat.
Proof.
  induction p as [|x p IH]; [reflexivity|].
  cbn [app frequency]. destruct (decide (x = t)); rewrite IH; reflexivity.
Qed.

Lemma frequency_absent (p : list string) (t : string) :
  ~ In t p -> frequency p t = 0%nat.
Proof.
  induction p as [|x p IH]; intros Hnot; [reflexivity|].
  cbn [frequency]. destruct (decide (x = t)) as [->|_].
  - exfalso. apply Hnot. left. reflexivity.
  - apply IH. intros Hin. apply Hnot. right. exact Hin.
Qed.

Lemma first_seen_present (p q : list string) (t : string) :
  In t p ->
  first_seen (p ++ q) t = first_seen p t /\ (first_seen p t < length p)%nat.
Proof.
  induction p as [|x p IH]; intros Hin; [destruct Hin|].
  cbn [app first_seen length]. destruct (decide (x = t)) as [->|Hne].
  - split; [reflexivity | lia].
  - destruct Hin as [Heq|Hin]; [contradiction|].
    destruct (IH Hin) as [-> Hlt]. split; [reflexivity | lia].
Qed.

Lemma first_seen_new (p : list string) (t : string) :
  ~ In t p -> first_seen (p ++ [t]) t = length p.
Proof.
  induction p as [|x p IH]; intros Hnot; cbn [app first_seen length].
  - destruct (decide (t = t)); [reflexivity | contradiction].
  - destruct (decide (x = t)) as [->|_].
    + exfalso. apply Hnot. left. reflexivity.
    + rewrite IH; [reflexivity|]. intros Hin. apply Hnot. right. exact Hin.
Qed.

(** *** Strongly sorted lists *)

Lemma StronglySorted_weaken {A : Type} (R R' : A -> A -> Prop) (l : list A) :
  (forall a b, In a l -> In b l -> R a b -> R' a b) ->
  StronglySorted R l -> StronglySorted R' l.
Proof.
  intros Himp Hs. induction Hs as [|a l Hs IH Hall]; constructor.
  - apply IH. intros x y Hx Hy. apply Himp; right; assumption.
  - rewrite List.Forall_forall in *. intros b Hb.
    apply Himp; [left; reflexivity | right; exact Hb | apply Hall, Hb].
Qed.

Lemma StronglySorted_snoc {A : Type} (R : A -> A -> Prop) (l : list A) (x : A) :
  StronglySorted R l -> Forall (fun a => R a x) l ->
  StronglySorted R (l ++ [x]).
Proof.
  intros Hs Hall. induction Hs as [|a l Hs IH Ha]; cbn [app].
  - constructor; constructor.
  - inversion Hall as [|? ? Hax Hall']; subst.
    constructor; [apply IH, Hall'|].
    apply Forall_app. split; [exact Ha | constructor; [exact Hax | constructor]].
Qed.

Lemma StronglySorted_map {A B : Type} (g : A -> B) (R : B -> B -> Prop)
    (l : list A) :
  StronglySorted (fun a b => R (g a) (g b)) l <-> StronglySorted R (map g l).
Proof.
  induction l as [|a l IH]; cbn [map].
  - split; intros _; constructor.
  - split; intros Hs; inversion Hs as [|? ? Hs' Hall]; subst;
      (constructor; [apply IH, Hs'|]).
    + apply List.Forall_forall. intros b Hb.
      apply in_map_iff in Hb as (x & <- & Hx).
      rewrite List.Forall_forall in Hall. apply Hall, Hx.
    + apply List.Forall_forall. intros x Hx.
      rewrite List.Forall_forall in Hall. apply Hall, in_map, Hx.
Qed.

(** *** The counter lists each distinct element once, in first-seen
    order, with its frequency *)

Definition keys_step (K : list string) (t : string) : list string :=
  if in_dec string_dec t K then K else K ++ [t].

Definition first_seen_order (p : list string) : list string :=
  fold_left keys_step p [].

Definition with_count (f : string -> nat) (k : string) : string * nat :=
  (k, f k).

Lemma first_seen_order_snoc (p : list string) (t : string) :
  first_seen_order (p ++ [t]) = keys_step (first_seen_order p) t.
Proof. unfold first_seen_order. rewrite fold_left_app. reflexivity. Qed.

Lemma first_seen_order_In (p : list string) (k : string) :
  In k (first_seen_order p) <-> In k p.
Proof.
  induction p as [|t p IH] using rev_ind; [reflexivity|].
  rewrite first_seen_order_snoc, in_app_iff. unfold keys_step.
  destruct (in_dec string_dec t (first_seen_order p)) as [Hin|Hnot].
  - rewrite IH. split; [tauto|]. intros [Hk|[<-|[]]]; [exact Hk|].
    apply IH, Hin.
  - rewrite in_app_iff, IH. reflexivity.
Qed.

Lemma first_seen_order_NoDup (p : list string) : NoDup (first_seen_order p).
Proof.
  induction p as [|t p IH] using rev_ind; [constructor|].
  rewrite first_seen_order_snoc. unfold keys_step.
  destruct (in_dec string_dec t (first_seen_order p)) as [Hin|Hnot];
    [exact IH|].
  apply NoDup_app. split; [exact IH|]. split.
  - intros x Hx Hxt. apply list_elem_of_singleton in Hxt. subst x.
    apply Hnot. apply list_elem_of_In. exact Hx.
  - apply NoDup_singleton.
Qed.

Lemma first_seen_order_sorted (p : list string) :
  StronglySorted (fun a b => (first_seen p a < first_seen p b)%nat)
    (first_seen_order p).
Proof.
  induction p as [|t p IH] using rev_ind; [constructor|].
  rewrite first_seen_order_snoc. unfold keys_step.
  destruct (in_dec string_dec t (first_seen_order p)) as [Hin|Hnot].
  - revert IH. apply StronglySorted_weaken. intros a b Ha Hb Hab.
    apply (proj1 (first_seen_order_In _ _)) in Ha, Hb.
    destruct (first_seen_present p [t] a Ha) as [-> _].
    destruct (first_seen_present p [t] b Hb) as [-> _]. exact Hab.
  - assert (Hnew : ~ In t p).
    { intros Hin. apply Hnot, first_seen_order_In, Hin. }
    apply StronglySorted_snoc.
    + revert IH. apply StronglySorted_weaken. intros a b Ha Hb Hab.
      apply (proj1 (first_seen_order_In _ _)) in Ha, Hb.
      destruct (first_seen_present p [t] a Ha) as [-> _].
      destruct (first_seen_present p [t] b Hb) as [-> _]. exact Hab.
    + apply List.Forall_forall. intros a Ha.
      apply (proj1 (first_seen_order_In _ _)) in Ha.
      destruct (first_seen_present p [t] a Ha) as [-> Hlt].
      rewrite first_seen_new by exact Hnew. exact Hlt.
Qed.

Lemma counter_incr_absent (f : string -> nat) (K : list string) (t : string) :
  ~ In t K ->
  counter_incr t (map (with_count f) K) = map (with_count f) K ++ [(t, 1%nat)].
Proof.
  induction K as [|k K IH]; intros Hnot; [reflexivity|].
  cbn [map counter_incr with_count app].
  destruct (decide (k = t)) as [->|_].
  - exfalso. apply Hnot. left. reflexivity.
  - f_equal. apply IH. intros Hin. apply Hnot. right. exact Hin.
Qed.

Lemma counter_incr_present (f f' : string -> nat) (K : list string) (t : string) :
  NoDup K -> In t K ->
  f' t = S (f t) -> (forall k, k <> t -> f' k = f k) ->
  counter_incr t (map (with_count f) K) = map (with_count f') K.
Proof.
  intros Hnd Hin Ht Hother.
  induction Hnd as [|k K Hk Hnd IH]; [destruct Hin|].
  cbn [map counter_incr with_count].
  change (with_count f' k) with (k, f' k).
  destruct (decide (k = t)) as [->|Hne].
  - rewrite Ht. f_equal. apply map_ext_in. intros a Ha.
    unfold with_count. rewrite Hother; [reflexivity|].
    intros ->. apply Hk. apply list_elem_of_In. exact Ha.
  - rewrite (Hother k Hne). f_equal. apply IH.
    destruct Hin as [Heq|Hin]; [contradiction | exact Hin].
Qed.

Lemma keys_with_count (f : string -> nat) (K : list string) :
  map fst (map (with_count f) K) = K.
Proof.
  induction K as [|k K IH]; [reflexivity|].
  cbn [map]. rewrite IH. reflexivity.
Qed.

Lemma Counter_spec (p : list string) :
  Counter p = map (with_count (frequency p)) (first_seen_order p).
Proof.
  induction p as [|t p IH] using rev_ind; [reflexivity|].
  unfold Counter in *. rewrite fold_left_app. cbn [fold_left]. rewrite IH.
  rewrite first_seen_order_snoc. unfold keys_step.
  destruct (in_dec string_dec t (first_seen_order p)) as [Hin|Hnot].
  - apply counter_incr_present;
      [apply first_seen_order_NoDup | exact Hin | |].
    + rewrite frequency_app. cbn [frequency].
      destruct (decide (t = t)); [lia | contradiction].
    + intros k Hne. rewrite frequency_app. cbn [frequency].
      destruct (decide (t = k)) as [Heq|_]; [congruence | lia].
  - rewrite counter_incr_absent by exact Hnot.
    rewrite map_app. cbn [map]. f_equal.
    + apply map_ext_in. intros k Hk. unfold with_count. f_equal.
      rewrite frequency_app. cbn [frequency].
      destruct (decide (t = k)) as [<-|_]; [contradiction | lia].
    + unfold with_count. f_equal. f_equal.
      rewrite frequency_app, frequency_absent.
      * cbn [frequency]. destruct (decide (t = t)); [reflexivity | contradiction].
      * intros Hin. apply Hnot, first_seen_order_In, Hin.
Qed.

(** *** The stable descending sort *)

Lemma insert_desc_Permutation (x : string * nat) (l : list (string * nat)) :
  Permutation (insert_desc x l) (x :: l).
Proof.
  induction l as [|y l IH]; cbn [insert_desc]; [reflexivity|].
  destruct (snd y <=? snd x)%nat; [reflexivity|].
  rewrite IH. apply perm_swap.
Qed.

Lemma sorted_by_count_desc_Permutation (c : list (string * nat)) :
  Permutation (sorted_by_count_desc c) c.
Proof.
  induction c as [|x c IH]; [reflexivity|].
  cbn [sorted_by_count_desc foldr].
  rewrite insert_desc_Permutation. constructor. exact IH.
Qed.

Section Stability.

(** [before a b]: the entry [a] comes earlier than [b] in the input. *)
Variable before : string * nat -> string * nat -> Prop.

Definition count_then_position (a b : string * nat) : Prop :=
  (snd b < snd a)%nat \/ (snd a = snd b /\ before a b).

Lemma count_then_position_le (a b : string * nat) :
  count_then_position a b -> (snd b <= snd a)%nat.
Proof. intros [Hlt|[Heq _]]; lia. Qed.

Lemma insert_desc_sorted (x : string * nat) (s : list (string * nat)) :
  StronglySorted count_then_position s ->
  Forall (before x) s ->
  StronglySorted count_then_position (insert_desc x s).
Proof.
  intros Hs Hbefore. induction Hs as [|y s Hs IH Hy]; cbn [insert_desc].
  - constructor; constructor.
  - inversion Hbefore as [|? ? Hxy Hxs]; subst.
    destruct (Nat.leb_spec (snd y) (snd x)) as [Hle|Hgt].
    + constructor; [constructor; assumption|].
      constructor.
      * destruct (Nat.eq_dec (snd x) (snd y)) as [Heq|Hne];
          [right; split; assumption | left; lia].
      * rewrite List.Forall_forall in *. intros z Hz.
        pose proof (count_then_position_le _ _ (Hy z Hz)) as Hzy.
        destruct (Nat.eq_dec (snd x) (snd z)) as [Heq|Hne];
          [right; split; [exact Heq | apply Hxs, Hz] | left; lia].
    + constructor; [apply IH, Hxs|].
      rewrite List.Forall_forall in *. intros z Hz.
      apply (Permutation_in _ (insert_desc_Permutation x s)) in Hz.
      destruct Hz as [<-|Hz]; [left; exact Hgt | apply Hy, Hz].
Qed.

Lemma sorted_by_count_desc_stable (c : list (string * nat)) :
  StronglySorted before c ->
  StronglySorted count_then_position (sorted_by_count_desc c).
Proof.
  intros Hc. induction Hc as [|x c Hc IH Hx]; [constructor|].
  cbn [sorted_by_count_desc foldr]. apply insert_desc_sorted; [exact IH|].
  rewrite List.Forall_forall in *. intros z Hz. apply Hx.
  apply (Permutation_in _ (sorted_by_count_desc_Permutation c)), Hz.
Qed.

End Stability.

(** *** The ranking computed by [next_focus] *)

(** All distinct tags, ranked; [next_focus] returns a prefix of it. *)
Definition full_ranking (tags : list string) : list string :=
  map fst (sorted_by_count_desc (Counter tags)).

Lemma full_ranking_Permutation (tags : list string) :
  Permutation (full_ranking tags) (first_seen_order tags).
Proof.
  unfold full_ranking.
  rewrite (Permutation_map fst (sorted_by_count_desc_Permutation _)).
  rewrite Counter_spec, keys_with_count. reflexivity.
Qed.

Lemma full_ranking_sorted (tags : list string) :
  StronglySorted (ranks_before tags) (full_ranking tags).
Proof.
  unfold full_ranking.
  apply (proj1 (StronglySorted_map fst (ranks_before tags) _)).
  set (before := fun a b : string * nat =>
                   (first_seen tags (fst a) < first_seen tags (fst b))%nat).
  assert (Hsorted : StronglySorted (count_then_position before)
                      (sorted_by_count_desc (Counter tags))).
  { apply sorted_by_count_desc_stable. unfold before.
    apply (proj2 (StronglySorted_map fst
             (fun a b => (first_seen tags a < first_seen tags b)%nat) _)).
    rewrite Counter_spec, keys_with_count.
    apply first_seen_order_sorted. }
  revert Hsorted. apply StronglySorted_weaken. intros a b Ha Hb Hab.
  assert (Hcount : forall e, In e (sorted_by_count_desc (Counter tags)) ->
                             snd e = frequency tags (fst e)).
  { intros e He.
    apply (Permutation_in _ (sorted_by_count_desc_Permutation _)) in He.
    rewrite Counter_spec in He. apply in_map_iff in He as (k & <- & _).
    reflexivity. }
  unfold ranks_before. rewrite <- (Hcount a Ha), <- (Hcount b Hb). exact Hab.
Qed.

Lemma recent_records_window (p : EvolutionPolicy) (history : list EvalRecord) :
  (0 < window p)%Z ->
  recent_records p history = most_recent (Z.to_nat (window p)) history.
Proof.
  intros Hw. unfold recent_records, most_recent.
  destruct history as [|e history]; [reflexivity|].
  apply last_n_pos, Hw.
Qed.

Lemma next_focus_top_tags (p : EvolutionPolicy) (history : list EvalRecord) :
  snd (next_focus p history)
  = take (Z.to_nat (focus_top_k_tags p))
      (full_ranking (flat_map error_tags (recent_records p history))).
Proof.
  unfold next_focus, full_ranking, most_common.
  rewrite firstn_map.
  destruct (map skill_of _); reflexivity.
Qed.

Lemma recent_records_window_zero (p : EvolutionPolicy)
    (history : list EvalRecord) :
  window p = 0%Z -> recent_records p history = history.
Proof.
  intros Hw. unfold recent_records. rewrite Hw.
  destruct history; [reflexivity | apply last_n_zero].
Qed.

Lemma ranks_before_asymmetric (tags : list string) (a b : string) :
  ranks_before tags a b -> ranks_before tags b a -> False.
Proof. unfold ranks_before. intros [H1|[H1 H1']] [H2|[H2 H2']]; lia. Qed.

(** The three properties of a ranking determine it. *)
Lemma ranking_unique (tags l1 l2 : list string) :
  List.NoDup l1 -> List.NoDup l2 ->
  (forall t, In t l1 <-> In t l2) ->
  StronglySorted (ranks_before tags) l1 ->
  StronglySorted (ranks_before tags) l2 ->
  l1 = l2.
Proof.
  revert l2. induction l1 as [|a l1 IH]; intros l2 Hd1 Hd2 Hsame Hs1 Hs2.
  - destruct l2 as [|b l2]; [reflexivity|].
    exfalso. apply (proj2 (Hsame b)). left. reflexivity.
  - destruct l2 as [|b l2].
    { exfalso. apply (proj1 (Hsame a)). left. reflexivity. }
    inversion Hd1 as [|? ? Ha Hd1']; subst.
    inversion Hd2 as [|? ? Hb Hd2']; subst.
    inversion Hs1 as [|? ? Hs1' Hall1]; subst.
    inversion Hs2 as [|? ? Hs2' Hall2]; subst.
    rewrite List.Forall_forall in Hall1, Hall2.
    assert (Hab : a = b).
    { destruct (string_dec a b) as [Heq|Hne]; [exact Heq|]. exfalso.
      assert (Ha2 : In a l2).
      { destruct (proj1 (Hsame a) (or_introl eq_refl)) as [Hba|Hin];
          [congruence | exact Hin]. }
      assert (Hb1 : In b l1).
      { destruct (proj2 (Hsame b) (or_introl eq_refl)) as [Hba|Hin];
          [congruence | exact Hin]. }
      exact (ranks_before_asymmetric tags a b (Hall1 b Hb1) (Hall2 a Ha2)). }
    subst b. f_equal. apply IH; try assumption.
    intros t. split; intros Hin.
    + destruct (proj1 (Hsame t) (or_intror Hin)) as [Heq|Hin2];
        [subst t; contradiction | exact Hin2].
    + destruct (proj2 (Hsame t) (or_intror Hin)) as [Heq|Hin1];
        [subst t; contradiction | exact Hin1].
Qed.

(** C5: for a window of at least one record, the focus tags returned
    by [next_focus] are the first [focus_top_k_tags] entries of the
    ranking that lists each distinct error tag of the [window] most
    recent records exactly once, a more frequent tag before a less
    frequent one and, among equally frequent tags, the one seen first
    before the other; these properties determine the ranking. With the
    default policy the cut is at 3. *)
Theorem next_focus_tags_ranked (p : EvolutionPolicy) (history : list EvalRecord) :
  (0 < window p)%Z ->
  exists ranking : list string,
    snd (next_focus p history) = take (Z.to_nat (focus_top_k_tags p)) ranking /\
    List.NoDup ranking /\
    (forall t, In t ranking <-> In t (recent_tags p history)) /\
    StronglySorted (ranks_before (recent_tags p history)) ranking /\
    (forall other : list string,
       List.NoDup other ->
       (forall t, In t other <-> In t (recent_tags p history)) ->
       StronglySorted (ranks_before (recent_tags p history)) other ->
       other = ranking) /\
    focus_top_k_tags default_policy = 3%Z.
Proof.
  intros Hw. exists (full_ranking (recent_tags p history)).
  assert (Hnd : List.NoDup (full_ranking (recent_tags p history))).
  { apply (Permutation_NoDup (Permutation_sym (full_ranking_Permutation _))).
    apply NoDup_ListNoDup, first_seen_order_NoDup. }
  assert (Hin : forall t, In t (full_ranking (recent_tags p history))
                          <-> In t (recent_tags p history)).
  { intros t. rewrite <- (first_seen_order_In (recent_tags p history) t).
    split; intros Hin.
    - apply (Permutation_in _ (full_ranking_Permutation _)), Hin.
    - apply (Permutation_in _ (Permutation_sym (full_ranking_Permutation _))), Hin. }
  split; [|split; [|split; [|split; [|split]]]].
  - rewrite next_focus_top_tags, recent_records_window by exact Hw.
    reflexivity.
  - exact Hnd.
  - exact Hin.
  - apply full_ranking_sorted.
  - intros other Hnd' Hin' Hs'.
    apply (ranking_unique (recent_tags p history)); try assumption.
    + intros t. rewrite Hin', Hin. reflexivity.
    + apply full_ranking_sorted.
  - reflexivity.
Qed.

Definition sample_history : list EvalRecord :=
  [ mkEval 0.5 [("correctness", 0.5%Q)] ["b"; "a"; "b"];
    mkEval 0.4 [("completeness", 0.1%Q)] ["a"; "c"; "d"; "c"; "e"; "e"] ].

Lemma next_focus_tags_ranked_witness :
  snd (next_focus default_policy sample_history) = ["b"; "a"; "c"] /\
  exists ranking : list string,
    snd (next_focus default_policy sample_history)
      = take (Z.to_nat (focus_top_k_tags default_policy)) ranking /\
    List.NoDup ranking /\
    (forall t, In t ranking <-> In t (recent_tags default_policy sample_history)) /\
    StronglySorted (ranks_before (recent_tags default_policy sample_history)) ranking /\
    (forall other : list string,
       List.NoDup other ->
       (forall t, In t other <-> In t (recent_tags default_policy sample_history)) ->
       StronglySorted (ranks_before (recent_tags default_policy sample_history)) other ->
       other = ranking) /\
    focus_top_k_tags default_policy = 3%Z.
Proof.
  split; [reflexivity|].
  apply (next_focus_tags_ranked default_policy sample_history).
  cbn. lia.
Defined.

End EvolveFacts.

(** ** bench/evaluate.py *)

Module Evaluate.
Import Py.

(** A Python float: not-a-number, an infinity, or a finite value. *)
Inductive pyfloat : Type :=
| FNan
| FInf (negative : bool)
| FFin (q : Q).

(** What [json.loads] can return. Python's parser also accepts the
    literals [NaN], [Infinity] and [-Infinity]. *)
Inductive json : Type :=
| JNull
| JBool (b : bool)
| JInt (z : Z)
| JFloat (f : pyfloat)
| JStr (s : string)
| JList (l : list json)
| JObj (d : gmap string json).

(** [a < b] on floats; every comparison with NaN is false. *)
Definition flt (a b : pyfloat) : bool :=
  match a, b with
  | FNan, _ | _, FNan => false
  | FInf true, FInf true => false
  | FInf true, _ => true
  | _, FInf true => false
  | FInf false, _ => false
  | FFin _, FInf false => true
  | FFin x, FFin y => negb (Qle_bool y x)
  end.

(** [min(a, b)] and [max(a, b)] of two arguments keep the first one
    unless the second is strictly smaller (larger). *)
Definition py_min (a b : pyfloat) : pyfloat := if flt b a then b else a.
Definition py_max (a b : pyfloat) : pyfloat := if flt a b then b else a.

(** [bool(v)] *)
Definition truthy (v : json) : bool :=
  match v with
  | JNull => false
  | JBool b => b
  | JInt z => negb (z =? 0)%Z
  | JFloat (FFin q) => negb (Qeq_bool q 0)
  | JFloat _ => true
  | JStr s => negb (String.eqb s "")
  | JList l => negb (Nat.eqb (length l) 0)
  | JObj d => negb (Nat.eqb (size d) 0)
  end.

(** [d.setdefault(k, v)], for its effect on [d]. *)
Definition setdefault (k : string) (v : json) (d : gmap string json)
  : gmap string json :=
  match d !! k with
  | Some _ => d
  | None => <[ k := v ]> d
  end.

(** The first integer too large for [float(int)], which then raises
    [OverflowError]. *)
Definition float_overflow : Z := (2 ^ 1024 - 2 ^ 970)%Z.

Definition dimensions : list string :=
  [ "correctness"; "completeness"; "reasoning_quality";
    "format_compliance"; "safety" ].

Definition default_subscore (k : string) : json :=
  JFloat (FFin (if String.eqb k "safety" then 1 else 0)).

Definition no_setdefault : exn :=
  AttributeError "object has no attribute 'setdefault'".

Section WithFloatParser.

(** [float(s)] on a string: the parsed value, or [None] where Python
    raises [ValueError]. *)
Variable float_of_str : string -> option pyfloat.

(** [float(x)]; [None] stands for any exception it raises. *)
Definition to_float (x : json) : option pyfloat :=
  match x with
  | JFloat f => Some f
  | JInt z =>
      if (Z.abs z <? float_overflow)%Z then Some (FFin (inject_Z z)) else None
  | JBool b => Some (FFin (if b then 1 else 0))
  | JStr s => float_of_str s
  | JNull | JList _ | JObj _ => None
  end.

(** The local [clamp] of [evaluate]. *)
Definition clamp (x : json) : pyfloat :=
  match to_float x with
  | Some f => py_max (FFin 0) (py_min (FFin 1) f)
  | None => FFin 0
  end.

(** [Evaluator.evaluate] from the result of [_safe_json_extract] on:
    the returned dictionary, or the exception that escapes. *)
Definition evaluate (extracted : option json) : outcome (gmap string json) :=
  let obj := match extracted with
             | Some v => if truthy v then v else JObj ∅
             | None => JObj ∅
             end in
  match obj with
  | JObj d =>
      let d := setdefault "score" (JFloat (FFin 0)) d in
      let d := setdefault "subscores" (JObj ∅) d in
      match d !! "subscores" with
      | Some (JObj subs) =>
          let subs :=
            fold_left (fun s k => setdefault k (default_subscore k) s)
              dimensions subs in
          let d := <[ "subscores" := JObj subs ]> d in
          let d := setdefault "error_tags" (JList []) d in
          let d := setdefault "feedback" (JStr "") d in
          let d := <[ "score" :=
                        JFloat (clamp (default (JFloat (FFin 0)) (d !! "score"))) ]> d in
          let subs := (fun v => JFloat (clamp v)) <$> subs in
          let d := <[ "subscores" := JObj subs ]> d in
          let d := match d !! "error_tags" with
                   | Some (JList _) => d
                   | _ => <[ "error_tags" := JList [] ]> d
                   end in
          Returns d
      | _ => Raises no_setdefault
      end
  | _ => Raises no_setdefault
  end.

End WithFloatParser.

(** A float within [[0, 1]]. *)
Definition unit_float (f : pyfloat) : Prop :=
  exists q, f = FFin q /\ (0 <= q <= 1)%Q.

Definition unit_json (v : json) : Prop :=
  exists f, v = JFloat f /\ unit_float f.

End Evaluate.

(** ** Properties of bench/evaluate.py *)

Module EvaluateFacts.
Import Py Evaluate.

Lemma unit_float_0 : unit_float (FFin 0).
Proof. exists 0%Q. split; [reflexivity|]. split; apply Qle_bool_iff; reflexivity. Qed.

Lemma unit_float_1 : unit_float (FFin 1).
Proof. exists 1%Q. split; [reflexivity|]. split; apply Qle_bool_iff; reflexivity. Qed.

Lemma Qle_bool_false (x y : Q) : Qle_bool x y = false -> (y <= x)%Q.
Proof.
  intros Hf. destruct (Qlt_le_dec x y) as [Hlt|Hle]; [|exact Hle].
  apply Qlt_le_weak, Qle_bool_iff in Hlt. congruence.
Qed.

Lemma clamp_float_unit (f : pyfloat) :
  unit_float (py_max (FFin 0) (py_min (FFin 1) f)).
Proof.
  destruct f as [|[|]|q]; try apply unit_float_0; try apply unit_float_1.
  unfold py_min, py_max, flt.
  destruct (Qle_bool 1 q) eqn:H1; cbn [negb].
  - apply unit_float_1.
  - destruct (Qle_bool q 0) eqn:H0; cbn [negb]; [apply unit_float_0|].
    exists q. split; [reflexivity|].
    split; apply Qle_bool_false; assumption.
Qed.

Section WithFloatParser.

Variable float_of_str : string -> option pyfloat.

Local Abbreviation clamp := (clamp float_of_str).
Local Abbreviation evaluate := (evaluate float_of_str).

Lemma clamp_unit (x : json) : unit_float (clamp x).
Proof.
  unfold Evaluate.clamp. destruct (to_float float_of_str x) as [f|];
    [apply clamp_float_unit | apply unit_float_0].
Qed.

(** Out-of-range numbers are pulled to the nearest bound and numbers in
    range are kept. *)
Lemma clamp_finite (q : Q) :
  ((1 <= q)%Q -> clamp (JFloat (FFin q)) = FFin 1) /\
  ((q <= 0)%Q -> clamp (JFloat (FFin q)) = FFin 0) /\
  ((0 < q)%Q -> (q < 1)%Q -> clamp (JFloat (FFin q)) = FFin q).
Proof.
  unfold Evaluate.clamp, to_float, py_min, py_max, flt.
  split; [|split].
  - intros H1. apply Qle_bool_iff in H1. rewrite H1. reflexivity.
  - intros H0. destruct (Qle_bool 1 q) eqn:H1; cbn [negb]; [|].
    + apply Qle_bool_iff in H1. exfalso.
      assert (Hc : (1 <= 0)%Q) by (eapply Qle_trans; eassumption).
      revert Hc. unfold Qle. cbn. lia.
    + apply Qle_bool_iff in H0. rewrite H0. reflexivity.
  - intros H0 H1.
    destruct (Qle_bool 1 q) eqn:E1.
    + apply Qle_bool_iff in E1. exfalso. exact (Qlt_not_le _ _ H1 E1).
    + cbn [negb]. destruct (Qle_bool q 0) eqn:E0; [|reflexivity].
      apply Qle_bool_iff in E0. exfalso. exact (Qlt_not_le _ _ H0 E0).
Qed.

Lemma setdefault_lookup (k k' : string) (v : json) (d : gmap string json) :
  setdefault k v d !! k' =
  if decide (k = k') then Some (default v (d !! k)) else d !! k'.
Proof.
  unfold setdefault. destruct (d !! k) as [w|] eqn:Hk.
  - destruct (decide (k = k')) as [<-|_]; [exact Hk | reflexivity].
  - rewrite lookup_insert. destruct (decide (k = k')); reflexivity.
Qed.

Lemma with_dimensions_lookup (subs : gmap string json) (k : string) :
  In k dimensions ->
  is_Some (fold_left (fun s k => setdefault k (default_subscore k) s)
             dimensions subs !! k).
Proof.
  assert (Hkeep : forall l (s : gmap string json),
            is_Some (s !! k) ->
            is_Some (fold_left (fun s k => setdefault k (default_subscore k) s)
                       l s !! k)).
  { induction l as [|x l IH]; intros s Hs; [exact Hs|].
    cbn [fold_left]. apply IH. rewrite setdefault_lookup.
    destruct (decide (x = k)); [eexists; reflexivity | exact Hs]. }
  assert (Hadd : forall l (s : gmap string json),
            In k l ->
            is_Some (fold_left (fun s k => setdefault k (default_subscore k) s)
                       l s !! k)).
  { induction l as [|x l IH]; intros s Hin; [destruct Hin|].
    cbn [fold_left]. destruct Hin as [->|Hin]; [|apply IH, Hin].
    apply Hkeep. rewrite setdefault_lookup.
    destruct (decide (k = k)); [eexists; reflexivity | contradiction]. }
  apply Hadd.
Qed.

(** Whenever [evaluate] returns, the record is normalised: the score
    and every subscore are floats within [[0, 1]], the five dimensions
    are present, and [error_tags] is a list. *)
Lemma evaluate_returns_normalised (extracted : option json)
    (r : gmap string json) :
  evaluate extracted = Returns r ->
  (exists f, r !! "score" = Some (JFloat f) /\ unit_float f) /\
  (exists subs,
     r !! "subscores" = Some (JObj subs) /\
     (forall k, In k dimensions -> exists v, subs !! k = Some v /\ unit_json v) /\
     (forall k v, subs !! k = Some v -> unit_json v)) /\
  (exists l, r !! "error_tags" = Some (JList l)).
Proof.
  unfold Evaluate.evaluate.
  set (obj := match extracted with
              | Some v => if truthy v then v else JObj ∅
              | None => JObj ∅
              end).
  destruct obj as [| | | | | |d]; try discriminate.
  set (d1 := setdefault "subscores" (JObj ∅)
               (setdefault "score" (JFloat (FFin 0)) d)).
  destruct (d1 !! "subscores") as [[| | | | | |subs]|]; try discriminate.
  set (subs1 := fold_left (fun s k => setdefault k (default_subscore k) s)
                  dimensions subs).
  set (d2 := setdefault "feedback" (JStr "")
               (setdefault "error_tags" (JList [])
                  (<[ "subscores" := JObj subs1 ]> d1))).
  set (d3 := <[ "subscores" := JObj ((fun v => JFloat (clamp v)) <$> subs1) ]>
               (<[ "score" :=
                     JFloat (clamp (default (JFloat (FFin 0)) (d2 !! "score"))) ]> d2)).
  assert (Hscore : exists f, d3 !! "score" = Some (JFloat f) /\ unit_float f).
  { eexists. split; [|apply clamp_unit].
    unfold d3. rewrite lookup_insert_ne by discriminate.
    rewrite lookup_insert_eq. reflexivity. }
  assert (Hsubs : d3 !! "subscores"
                  = Some (JObj ((fun v => JFloat (clamp v)) <$> subs1))).
  { unfold d3. apply lookup_insert_eq. }
  assert (Hvals : forall k v,
            ((fun v => JFloat (clamp v)) <$> subs1) !! k = Some v -> unit_json v).
  { intros k v Hk. rewrite lookup_fmap in Hk.
    destruct (subs1 !! k) as [w|]; [|discriminate].
    injection Hk as <-. eexists. split; [reflexivity | apply clamp_unit]. }
  assert (Hdims : forall k, In k dimensions ->
            exists v, ((fun v => JFloat (clamp v)) <$> subs1) !! k = Some v
                      /\ unit_json v).
  { intros k Hk. destruct (with_dimensions_lookup subs k Hk) as [w Hw].
    fold subs1 in Hw. exists (JFloat (clamp w)). split.
    - rewrite lookup_fmap, Hw. reflexivity.
    - eexists. split; [reflexivity | apply clamp_unit]. }
  destruct (d3 !! "error_tags") as [[| | | | |l|]|] eqn:Htags;
    intros [= <-];
    (split; [|split]);
    try (rewrite lookup_insert_ne by discriminate; exact Hscore);
    try exact Hscore;
    try (exists ((fun v => JFloat (clamp v)) <$> subs1);
         split; [|split; [exact Hdims | exact Hvals]];
         first [ exact Hsubs
               | rewrite lookup_insert_ne by discriminate; exact Hsubs ]);
    try (exists []; apply lookup_insert_eq);
    try (exists l; exact Htags).
Qed.

(** [evaluate] returns on every reply that cannot be parsed and on
    every object whose ["subscores"] is missing or is itself an
    object. *)
Lemma evaluate_returns_on_objects (d : gmap string json) :
  d !! "subscores" = None \/ (exists s, d !! "subscores" = Some (JObj s)) ->
  (exists r, evaluate None = Returns r) /\
  (exists r, evaluate (Some (JObj d)) = Returns r).
Proof.
  intros Hsubs. split; [eexists; reflexivity|].
  unfold Evaluate.evaluate. cbn [truthy].
  destruct (negb (size d =? 0)%nat); [|eexists; reflexivity].
  rewrite !setdefault_lookup.
  destruct (decide ("subscores" = "subscores")) as [_|Hne]; [|contradiction].
  destruct (decide ("score" = "subscores")) as [Heq|_]; [discriminate|].
  destruct Hsubs as [->|[s ->]]; cbn [default]; eexists; reflexivity.
Qed.

(** The defaults: a reply that cannot be parsed, or an object with
    neither score nor subscores nor tags, becomes score 0.0, safety 1.0,
    every other subscore 0.0 and no tags. *)
Lemma evaluate_defaults :
  evaluate None = evaluate (Some (JObj ∅)) /\
  evaluate None =
  Returns {[ "score" := JFloat (FFin 0);
             "subscores" :=
               JObj {[ "correctness" := JFloat (FFin 0);
                       "completeness" := JFloat (FFin 0);
                       "reasoning_quality" := JFloat (FFin 0);
                       "format_compliance" := JFloat (FFin 0);
                       "safety" := JFloat (FFin 1) ]};
             "error_tags" := JList [];
             "feedback" := JStr "" ]}.
Proof. split; reflexivity. Qed.

(** C6, evaluated on the code: a grading reply whose ["subscores"] is
    [null] (or any value other than an object), and a reply that is a
    non-empty JSON array, make [evaluate] raise [AttributeError] at
    [setdefault]; no record is produced. *)
Theorem evaluate_raises_on_malformed_subscores :
  evaluate (Some (JObj {[ "score" := JFloat (FFin 0.9);
                          "subscores" := JNull ]}))
    = Raises no_setdefault /\
  evaluate (Some (JObj {[ "subscores" := JFloat (FFin 0.8) ]}))
    = Raises no_setdefault /\
  evaluate (Some (JList [JInt 1])) = Raises no_setdefault.
Proof. repeat split; reflexivity. Qed.

End WithFloatParser.

End EvaluateFacts.

(** ** Further properties of bench/ema.py *)

Module EmaMore.
Import Py Ema.
Local Open Scope R_scope.





Lemma retention_pow (n : nat) :
  (0 < n)%nat -> Rpower 2 (-1 / INR n) ^ n = 1 / 2.
Proof.
  intros Hn.
  assert (Hpos : 0 < INR n) by (apply lt_0_INR; lia).
  rewrite <- Rpower_pow by (unfold Rpower; apply exp_pos).
  rewrite Rpower_mult.
  replace (-1 / INR n * INR n) with (Ropp 1) by (field; lra).
  rewrite Rpower_Ropp, Rpower_1 by lra. lra.
Qed.

(** X2: the half-life is what its name says: with the factor computed
    from a whole half-life of [n >= 1] steps, [n] updates shrink the
    retained share [(1 - alpha)^n] to one half, so the weight
    [alpha * (1 - alpha)^k] of an input halves every [n] steps. *)
Theorem half_life_halves_the_weight (n : nat) (a : R) :
  (0 < n)%nat ->
  alpha_from_half_life (INR n) = Returns a ->
  (1 - a) ^ n = 1 / 2 /\
  (forall k, geometric_weight a (k + n) = geometric_weight a k / 2).
Proof.
  intros Hn Ha.
  assert (Hpos : 0 < INR n) by (apply lt_0_INR; lia).
  unfold alpha_from_half_life in Ha.
  destruct (Rle_dec (INR n) 0) as [Hle|_]; [lra|].
  injection Ha as <-.
  assert (Hhalf : (1 - (1 - Rpower 2 (-1 / INR n))) ^ n = 1 / 2).
  { replace (1 - (1 - Rpower 2 (-1 / INR n))) with (Rpower 2 (-1 / INR n))
      by ring.
    apply retention_pow, Hn. }
  split; [exact Hhalf|].
  intros k. unfold geometric_weight. rewrite pow_add, Hhalf. field.
Qed.

Lemma half_life_halves_the_weight_witness :
  exists a, alpha_from_half_life (INR 20) = Returns a /\ (1 - a) ^ 20 = 1 / 2.
Proof.
  exists (1 - Rpower 2 (-1 / INR 20)).
  assert (H20 : 0 < INR 20) by (apply lt_0_INR; lia).
  assert (Ha : alpha_from_half_life (INR 20)
               = Returns (1 - Rpower 2 (-1 / INR 20))).
  { unfold alpha_from_half_life.
    destruct (Rle_dec (INR 20) 0) as [Hle|_]; [lra | reflexivity]. }
  split; [exact Ha|].
  apply (half_life_halves_the_weight 20 _ ltac:(lia) Ha).
Defined.






Lemma updates_alpha_one (e : EMAScore) (xs : list R) :
  alpha e = 1 -> value e <> None -> snd (updates e xs) = xs.
Proof.
  revert e. induction xs as [|x xs IH]; intros e Ha Hv; [reflexivity|].
  cbn [updates]. unfold update.
  destruct (value e) as [v0|] eqn:Hval; [|contradiction].
  specialize (IH (mkEMA (alpha e) (Some (alpha e * x + (1 - alpha e) * v0)))
                 Ha ltac:(discriminate)).
  destruct (updates _ xs) as [e2 rs]. cbn [snd] in *.
  rewrite IH. f_equal. rewrite Ha. ring.
Qed.

Lemma updates_alpha_zero (e : EMAScore) (v : R) (xs : list R) :
  alpha e = 0 -> value e = Some v ->
  snd (updates e xs) = repeat v (length xs).
Proof.
  revert e. induction xs as [|x xs IH]; intros e Ha Hv; [reflexivity|].
  cbn [updates]. unfold update. rewrite Hv.
  assert (Hkeep : alpha e * x + (1 - alpha e) * v = v) by (rewrite Ha; ring).
  rewrite Hkeep.
  specialize (IH (mkEMA (alpha e) (Some v)) Ha eq_refl).
  destruct (updates _ xs) as [e2 rs]. cbn [snd length repeat] in *.
  rewrite IH. reflexivity.
Qed.

(** X4: the two ends of the factor's range: with factor 1 every
    [update] returns its own input (no smoothing), and with factor 0
    every [update] returns the very first input (the estimate never
    moves). *)
Theorem ema_extreme_factors (x0 : R) (xs : list R) :
  snd (updates (fresh 1) (x0 :: xs)) = x0 :: xs /\
  snd (updates (fresh 0) (x0 :: xs)) = repeat x0 (S (length xs)).
Proof.
  split.
  - cbn [updates]. unfold update at 1. cbn [fresh value alpha].
    pose proof (updates_alpha_one (mkEMA 1 (Some x0)) xs eq_refl
                  ltac:(discriminate)) as H.
    destruct (updates (mkEMA 1 (Some x0)) xs) as [e2 rs]. cbn [snd] in *.
    rewrite H. reflexivity.
  - cbn [updates]. unfold update at 1. cbn [fresh value alpha].
    pose proof (updates_alpha_zero (mkEMA 0 (Some x0)) x0 xs eq_refl eq_refl)
      as H.
    destruct (updates (mkEMA 0 (Some x0)) xs) as [e2 rs]. cbn [snd] in *.
    rewrite H. reflexivity.
Qed.

End EmaMore.

(** ** Further properties of bench/generate.py: [normalize_text] *)

Module NormalizeFacts.
Import Py Generate.

Ltac by_cases_on_char c :=
  destruct c as [[|] [|] [|] [|] [|] [|] [|] [|]]; reflexivity.




Lemma lower_char_idem (c : ascii) : lower_char (lower_char c) = lower_char c.
Proof. by_cases_on_char c. Qed.

Lemma lower_char_space (c : ascii) : is_space (lower_char c) = is_space c.
Proof. by_cases_on_char c. Qed.

Lemma lower_char_of_space (c : ascii) : is_space c = true -> lower_char c = c.
Proof.
  destruct c as [[|] [|] [|] [|] [|] [|] [|] [|]];
    intros H; first [reflexivity | discriminate H].
Qed.



Lemma lower_idem (s : string) : lower (lower s) = lower s.
Proof.
  induction s as [|c s IH]; [reflexivity|].
  cbn [lower]. rewrite lower_char_idem, IH. reflexivity.
Qed.

Lemma lower_collapse (b : bool) (s : string) :
  lower (collapse_from b s) = collapse_from b (lower s).
Proof.
  revert b. induction s as [|c s IH]; intros b; [reflexivity|].
  cbn [lower collapse_from]. rewrite lower_char_space.
  destruct (is_space c) eqn:Hc.
  - destruct b; cbn [lower]; rewrite IH; reflexivity.
  - cbn [lower]. rewrite IH. reflexivity.
Qed.

Lemma lower_lstrip (s : string) : lower (lstrip s) = lstrip (lower s).
Proof.
  induction s as [|c s IH]; [reflexivity|].
  cbn [lower lstrip]. rewrite lower_char_space.
  destruct (is_space c); [exact IH | reflexivity].
Qed.

Lemma lower_rstrip (s : string) : lower (rstrip s) = rstrip (lower s).
Proof.
  induction s as [|c s IH]; [reflexivity|].
  cbn [lower rstrip]. rewrite <- IH, lower_char_space.
  destruct (rstrip s) as [|c' r]; cbn [lower].
  - destruct (is_space c); reflexivity.
  - reflexivity.
Qed.

Lemma collapse_idem (s : string) :
  (forall b, collapse_from b (collapse_from b s) = collapse_from b s) /\
  collapse_from false (collapse_from true s) = collapse_from true s.
Proof.
  induction s as [|c s [IHb IHt]]; [split; [intros []|]; reflexivity|].
  split.
  - intros b. cbn [collapse_from]. destruct (is_space c) eqn:Hc.
    + destruct b; [apply IHb|].
      cbn [collapse_from]. change (is_space " ") with true.
      rewrite IHb. reflexivity.
    + cbn [collapse_from]. rewrite Hc, IHb. reflexivity.
  - cbn [collapse_from]. destruct (is_space c) eqn:Hc; [exact IHt|].
    cbn [collapse_from]. rewrite Hc, (proj1 (conj IHb IHt) false).
    reflexivity.
Qed.

Lemma lstrip_collapse (b b' : bool) (s : string) :
  lstrip (collapse_from b s) = collapse_from b' (lstrip s).
Proof.
  revert b b'. induction s as [|c s IH]; intros b b'; [reflexivity|].
  cbn [collapse_from lstrip]. destruct (is_space c) eqn:Hc.
  - destruct b; [apply IH|].
    cbn [lstrip]. change (is_space " ") with true. apply IH.
  - cbn [lstrip collapse_from]. rewrite Hc. reflexivity.
Qed.

Fixpoint blank (s : string) : bool :=
  match s with
  | EmptyString => true
  | String c s' => is_space c && blank s'
  end.

Lemma rstrip_empty (s : string) : rstrip s = EmptyString <-> blank s = true.
Proof.
  induction s as [|c s IH]; [split; reflexivity|].
  cbn [rstrip blank]. destruct (rstrip s) as [|c' r].
  - destruct (is_space c); cbn [andb].
    + split; intros _; [apply IH|]; reflexivity.
    + split; discriminate.
  - split; [discriminate|]. intros H.
    apply andb_true_iff in H as [_ H]. apply IH in H. discriminate H.
Qed.

Lemma rstrip_idem (s : string) : rstrip (rstrip s) = rstrip s.
Proof.
  induction s as [|c s IH]; [reflexivity|].
  cbn [rstrip]. destruct (rstrip s) as [|c' r] eqn:Hr.
  - destruct (is_space c) eqn:Hc; [reflexivity|].
    cbn [rstrip]. rewrite Hc. reflexivity.
  - cbn [rstrip]. cbn [rstrip] in IH. rewrite IH. reflexivity.
Qed.

Lemma collapse_blank (b : bool) (s : string) :
  collapse_from b s = EmptyString -> blank s = true.
Proof.
  revert b. induction s as [|c s IH]; intros b; [reflexivity|].
  cbn [collapse_from blank]. destruct (is_space c).
  - destruct b; [apply IH | discriminate].
  - discriminate.
Qed.

Lemma collapse_from_cons (b : bool) (c : ascii) (s : string) :
  collapse_from b (String c s) =
  if is_space c
  then (if b then collapse_from true s else String " " (collapse_from true s))
  else String c (collapse_from false s).
Proof. reflexivity. Qed.

Lemma rstrip_collapse (b : bool) (s : string) :
  rstrip (collapse_from b s) = collapse_from b (rstrip s).
Proof.
  revert b. induction s as [|c s IH]; intros b; [reflexivity|].
  cbn [collapse_from rstrip].
  destruct (rstrip s) as [|c' r] eqn:Hr.
  - destruct (is_space c) eqn:Hc.
    + destruct b.
      * rewrite IH. reflexivity.
      * cbn [rstrip]. rewrite IH. change (is_space " ") with true.
        reflexivity.
    + cbn [rstrip collapse_from]. rewrite IH, Hc. reflexivity.
  - assert (Hne : forall b', collapse_from b' (String c' r) <> EmptyString).
    { intros b' Hempty. apply collapse_blank in Hempty.
      apply rstrip_empty in Hempty.
      rewrite <- Hr, rstrip_idem, Hr in Hempty. discriminate Hempty. }
    destruct (is_space c) eqn:Hc.
    + destruct b.
      * rewrite IH. rewrite (collapse_from_cons true c), Hc. reflexivity.
      * cbn [rstrip]. rewrite IH.
        rewrite (collapse_from_cons false c), Hc.
        destruct (collapse_from true (String c' r)) eqn:Hcol;
          [exfalso; exact (Hne true Hcol) | reflexivity].
    + cbn [rstrip]. rewrite IH.
      rewrite (collapse_from_cons b c), Hc.
      destruct (collapse_from false (String c' r)) eqn:Hcol;
        [exfalso; exact (Hne false Hcol) | reflexivity].
Qed.

Lemma lstrip_idem (s : string) : lstrip (lstrip s) = lstrip s.
Proof.
  induction s as [|c s IH]; [reflexivity|].
  cbn [lstrip]. destruct (is_space c) eqn:Hc; [exact IH|].
  cbn [lstrip]. rewrite Hc. reflexivity.
Qed.

Lemma strip_collapse (s : string) :
  strip (collapse_whitespace s) = collapse_whitespace (strip s).
Proof.
  unfold strip, collapse_whitespace.
  rewrite (lstrip_collapse false false), rstrip_collapse. reflexivity.
Qed.

Lemma lstrip_rstrip (s : string) : lstrip (rstrip s) = rstrip (lstrip s).
Proof.
  induction s as [|c s IH]; [reflexivity|].
  cbn [lstrip rstrip]. destruct (is_space c) eqn:Hc.
  - destruct (rstrip s) as [|c' r] eqn:Hr.
    + cbn [lstrip]. symmetry. apply rstrip_empty.
      assert (Hb : blank s = true) by (apply rstrip_empty, Hr).
      clear -Hb. induction s as [|d s IHs]; [reflexivity|].
      cbn [blank] in Hb. apply andb_true_iff in Hb as [Hd Hb].
      cbn [lstrip]. rewrite Hd. apply IHs, Hb.
    + cbn [lstrip]. rewrite Hc. exact IH.
  - destruct (rstrip s) as [|c' r] eqn:Hr; cbn [lstrip rstrip];
      rewrite Hc, ?Hr; reflexivity.
Qed.

Lemma strip_idem (s : string) : strip (strip s) = strip s.
Proof.
  unfold strip.
  rewrite (lstrip_rstrip (lstrip s)), lstrip_idem, rstrip_idem.
  reflexivity.
Qed.








Lemma append_cons (c : ascii) (w s : string) :
  String c w +:+ s = String c (w +:+ s).
Proof. reflexivity. Qed.

Lemma append_nil (s : string) : EmptyString +:+ s = s.
Proof. reflexivity. Qed.

Lemma lstrip_blank_prefix (w s : string) :
  blank w = true -> lstrip (w +:+ s) = lstrip s.
Proof.
  induction w as [|c w IH]; intros Hw; [reflexivity|].
  cbn [blank] in Hw. apply andb_true_iff in Hw as [Hc Hw].
  rewrite append_cons. cbn [lstrip]. rewrite Hc. apply IH, Hw.
Qed.

Lemma rstrip_blank_suffix (w s : string) :
  blank w = true -> rstrip (s +:+ w) = rstrip s.
Proof.
  intros Hw. induction s as [|c s IH].
  - rewrite append_nil. apply rstrip_empty, Hw.
  - rewrite append_cons. cbn [rstrip]. rewrite IH. reflexivity.
Qed.

Lemma lstrip_append_nonblank (s w : string) :
  blank s = false -> lstrip (s +:+ w) = lstrip s +:+ w.
Proof.
  induction s as [|c s IH]; intros Hs; [discriminate Hs|].
  cbn [blank] in Hs. rewrite append_cons. cbn [lstrip].
  destruct (is_space c); [apply IH; exact Hs | reflexivity].
Qed.

Lemma lstrip_blank (s : string) : blank s = true -> lstrip s = EmptyString.
Proof.
  induction s as [|c s IH]; intros Hs; [reflexivity|].
  cbn [blank] in Hs. apply andb_true_iff in Hs as [Hc Hs].
  cbn [lstrip]. rewrite Hc. apply IH, Hs.
Qed.

Lemma blank_append (s w : string) :
  blank (s +:+ w) = blank s && blank w.
Proof.
  induction s as [|c s IH]; [reflexivity|].
  rewrite append_cons. cbn [blank]. rewrite IH. apply andb_assoc.
Qed.

Lemma strip_blank_prefix (w s : string) :
  blank w = true -> strip (w +:+ s) = strip s.
Proof. intros Hw. unfold strip. rewrite lstrip_blank_prefix by exact Hw. reflexivity. Qed.

Lemma strip_blank_suffix (w s : string) :
  blank w = true -> strip (s +:+ w) = strip s.
Proof.
  intros Hw. unfold strip. destruct (blank s) eqn:Hs.
  - rewrite !lstrip_blank; [reflexivity | exact Hs |].
    rewrite blank_append, Hs, Hw. reflexivity.
  - rewrite lstrip_append_nonblank by exact Hs.
    apply rstrip_blank_suffix, Hw.
Qed.

Lemma normalize_text_variants (s : string) :
  normalize_text (lower s) = normalize_text s /\
  normalize_text (collapse_whitespace s) = normalize_text s /\
  normalize_text (strip s) = normalize_text s.
Proof.
  unfold normalize_text. split; [|split].
  - rewrite lower_idem. reflexivity.
  - unfold collapse_whitespace.
    rewrite lower_collapse, (proj1 (collapse_idem (lower s)) false).
    reflexivity.
  - assert (Hl : lower (strip s) = strip (lower s)).
    { unfold strip. rewrite lower_rstrip, lower_lstrip. reflexivity. }
    rewrite Hl, <- strip_collapse, strip_idem. reflexivity.
Qed.

(** X6: the normal form, and with it the fingerprint, does not depend
    on letter case, on how long a run of whitespace is, or on
    whitespace around the text: lower-casing the text, collapsing its
    whitespace or stripping it first changes nothing. *)
Theorem normalize_text_insensitive (s : string) :
  normalize_text (lower s) = normalize_text s /\
  normalize_text (collapse_whitespace s) = normalize_text s /\
  normalize_text (strip s) = normalize_text s /\
  (forall w, blank w = true ->
     normalize_text (w +:+ s) = normalize_text s /\
     normalize_text (s +:+ w) = normalize_text s).
Proof.
  destruct (normalize_text_variants s) as (Hl & Hc & Hs).
  repeat split; try assumption.
  - rewrite <- (proj2 (proj2 (normalize_text_variants (w +:+ s)))), <- Hs.
    f_equal. apply strip_blank_prefix. assumption.
  - rewrite <- (proj2 (proj2 (normalize_text_variants (s +:+ w)))), <- Hs.
    f_equal. apply strip_blank_suffix. assumption.
Qed.

(** The normal form is not a fixed point of [normalize_text]: dropping
    a symbol between two blanks leaves a double blank, which a second
    pass would collapse. *)
Lemma normalize_text_twice :
  normalize_text "a + b" = "a  b" /\
  normalize_text (normalize_text "a + b") = "a b".
Proof. split; reflexivity. Qed.

End NormalizeFacts.

(** ** Further properties of bench/generate.py: [NoveltyFilter] *)

Module FilterFacts.
Import Py Generate.

(** The [n] newest entries of a list (all of it when it is shorter). *)
Definition newest {A : Type} (n : nat) (l : list A) : list A :=
  drop (length l - n) l.

(** The texts handed to the filter by a history of calls, in order. *)
Definition inserted (ops : list op) : list string :=
  flat_map (fun o => match o with OpSeed l => l | OpAdd q => [q] end) ops.

Lemma newest_app {A : Type} (n : nat) (a l : list A) :
  newest n (newest n a ++ l) = newest n (a ++ l).
Proof.
  unfold newest. rewrite !length_app, length_drop.
  destruct (Nat.le_gt_cases (length a) n) as [Hle|Hgt].
  - replace (length a - n)%nat with 0%nat by lia. cbn [drop].
    f_equal. lia.
  - replace (length a - (length a - n) + length l - n)%nat
      with (length l) by lia.
    replace (length a + length l - n)%nat
      with ((length a - n) + length l)%nat by lia.
    rewrite <- drop_drop. f_equal.
    rewrite drop_app_le by lia. reflexivity.
Qed.

Lemma newest_all {A : Type} (n : nat) (l : list A) :
  (length l <= n)%nat -> newest n l = l.
Proof.
  intros Hle. unfold newest.
  replace (length l - n)%nat with 0%nat by lia. reflexivity.
Qed.

Lemma last_n_newest {A : Type} (n : Z) (a l : list A) :
  (0 <= n)%Z ->
  newest (Z.to_nat n) (a ++ last_n l n) = newest (Z.to_nat n) (a ++ l).
Proof.
  intros Hn. destruct (Z.eq_dec n 0%Z) as [->|Hne].
  - rewrite last_n_zero. reflexivity.
  - rewrite last_n_pos by lia.
    destruct (Nat.le_gt_cases (length l) (Z.to_nat n)) as [Hle|Hgt].
    + replace (length l - Z.to_nat n)%nat with 0%nat by lia.
      rewrite drop_0. reflexivity.
    + unfold newest. rewrite !length_app, length_drop.
      rewrite (drop_app_ge a (drop _ l)) by lia.
      rewrite (drop_app_ge a l) by lia.
      rewrite drop_drop. f_equal. lia.
Qed.

(** *** [np.max] and [np.argmax] *)

Lemma np_scan (l pre : list Q) (best : Q) (bi : nat) :
  (bi < length pre)%nat ->
  nth bi pre 0%Q = best ->
  (forall x, In x pre -> (x <= best)%Q) ->
  (forall i, (i < bi)%nat -> (nth i pre 0 < best)%Q) ->
  (np_argmax_from best bi (length pre) l < length (pre ++ l))%nat /\
  nth (np_argmax_from best bi (length pre) l) (pre ++ l) 0%Q
    = np_max_from best l /\
  (forall x, In x (pre ++ l) -> (x <= np_max_from best l)%Q) /\
  (forall i, (i < np_argmax_from best bi (length pre) l)%nat ->
             (nth i (pre ++ l) 0 < np_max_from best l)%Q).
Proof.
  revert pre best bi. induction l as [|x l IH]; intros pre best bi Hbi Hnth Hle Hlt.
  - cbn [np_argmax_from np_max_from]. rewrite app_nil_r.
    repeat split; assumption.
  - cbn [np_argmax_from np_max_from].
    assert (Hlen : length (pre ++ [x]) = S (length pre)).
    { rewrite length_app. cbn [length]. lia. }
    replace (pre ++ x :: l) with ((pre ++ [x]) ++ l)
      by (rewrite <- app_assoc; reflexivity).
    rewrite <- Hlen.
    destruct (Qle_bool x best) eqn:Hx.
    + apply Qle_bool_iff in Hx. apply IH.
      * rewrite Hlen. lia.
      * rewrite app_nth1 by exact Hbi. exact Hnth.
      * intros y Hy. apply in_app_iff in Hy as [Hy|[<-|[]]];
          [apply Hle, Hy | exact Hx].
      * intros i Hi. rewrite app_nth1 by lia. apply Hlt, Hi.
    + assert (Hbx : (best < x)%Q).
      { apply Qnot_le_lt. intros Hc. apply Qle_bool_iff in Hc. congruence. }
      apply IH.
      * rewrite Hlen. lia.
      * apply nth_middle.
      * intros y Hy. apply in_app_iff in Hy as [Hy|[<-|[]]];
          [|apply Qle_refl].
        apply Qlt_le_weak. eapply Qle_lt_trans; [apply Hle, Hy | exact Hbx].
      * intros i Hi. rewrite app_nth1 by exact Hi.
        eapply Qle_lt_trans; [|exact Hbx]. apply Hle, nth_In, Hi.
Qed.

Lemma np_max_argmax (x : Q) (l : list Q) :
  (np_argmax_from x 0 1 l < length (x :: l))%nat /\
  nth (np_argmax_from x 0 1 l) (x :: l) 0%Q = np_max_from x l /\
  (forall y, In y (x :: l) -> (y <= np_max_from x l)%Q) /\
  (forall i, (i < np_argmax_from x 0 1 l)%nat ->
             (nth i (x :: l) 0 < np_max_from x l)%Q).
Proof.
  apply (np_scan l [x] x 0%nat).
  - cbn. lia.
  - reflexivity.
  - intros y [<-|[]]. apply Qle_refl.
  - intros i Hi. lia.
Qed.

Section WithLibraries.

Variable sha256_hexdigest : string -> string.
Variable tfidf_cosine : list string -> string -> outcome (list Q).

Local Abbreviation text_hash := (text_hash sha256_hexdigest).
Local Abbreviation add := (add sha256_hexdigest).
Local Abbreviation seed := (seed sha256_hexdigest).
Local Abbreviation is_novel := (is_novel sha256_hexdigest tfidf_cosine).
Local Abbreviation run_ops := (run_ops sha256_hexdigest).
Local Abbreviation fingerprints := (fingerprints sha256_hexdigest).
Local Abbreviation within_capacity := within_capacity.



(** *** First in, first out *)

Lemma add_texts_newest (self : NoveltyFilter) (q : string) :
  (0 <= max_history self)%Z -> within_capacity self ->
  _texts (add self q)
  = newest (Z.to_nat (max_history self)) (_texts self ++ [q]).
Proof.
  unfold Generate.within_capacity. intros Hmh Hcap.
  destruct (add_cases sha256_hexdigest self q)
    as [[Hlt ->]|[Hge (old & rest & Happ & ->)]]; cbn [_texts].
  - rewrite newest_all; [reflexivity|]. rewrite length_app. cbn [length]. lia.
  - unfold newest. rewrite Happ.
    assert (Hlen : length (old :: rest) = S (length (_texts self))).
    { rewrite <- Happ, length_app. cbn [length]. lia. }
    rewrite Hlen.
    replace (S (length (_texts self)) - Z.to_nat (max_history self))%nat
      with 1%nat by lia.
    reflexivity.
Qed.

Lemma fold_add_texts_newest (l : list string) (self : NoveltyFilter) :
  (0 <= max_history self)%Z -> within_capacity self ->
  _texts (fold_left add l self)
  = newest (Z.to_nat (max_history self)) (_texts self ++ l) /\
  within_capacity (fold_left add l self).
Proof.
  revert self. induction l as [|q l IH]; intros self Hmh Hcap.
  - cbn [fold_left]. rewrite app_nil_r. split; [|exact Hcap].
    symmetry. apply newest_all. unfold Generate.within_capacity in Hcap. lia.
  - cbn [fold_left].
    pose proof (add_within_capacity sha256_hexdigest self q Hcap) as Hcap'.
    destruct (add_config sha256_hexdigest self q) as [Hmh' _].
    destruct (IH (add self q)) as [Htexts Hc]; [lia | exact Hcap' |].
    split; [|exact Hc].
    rewrite Htexts, Hmh', add_texts_newest by assumption.
    rewrite newest_app, <- app_assoc. reflexivity.
Qed.

Lemma run_ops_texts_newest (ops : list op) (self : NoveltyFilter) :
  (0 <= max_history self)%Z -> within_capacity self ->
  _texts (run_ops self ops)
  = newest (Z.to_nat (max_history self)) (_texts self ++ inserted ops).
Proof.
  unfold Generate.run_ops.
  revert self. induction ops as [|o ops IH]; intros self Hmh Hcap.
  - cbn [fold_left inserted flat_map]. rewrite app_nil_r.
    symmetry. apply newest_all. unfold Generate.within_capacity in Hcap. lia.
  - cbn [fold_left inserted flat_map]. fold (inserted ops).
    assert (Hstep : _texts (run_op sha256_hexdigest self o)
                    = newest (Z.to_nat (max_history self))
                        (_texts self ++ match o with
                                        | OpSeed l => l
                                        | OpAdd q => [q]
                                        end)
                    /\ within_capacity (run_op sha256_hexdigest self o)
                    /\ max_history (run_op sha256_hexdigest self o)
                       = max_history self).
    { destruct o as [l|q]; cbn [run_op].
      - unfold Generate.seed.
        destruct (fold_add_texts_newest (last_n l (max_history self)) self
                    Hmh Hcap) as [Ht Hc].
        split; [|split; [exact Hc | apply fold_add_config]].
        rewrite Ht. apply last_n_newest, Hmh.
      - split; [apply add_texts_newest; assumption|].
        split; [apply add_within_capacity, Hcap | apply add_config]. }
    destruct Hstep as (Ht & Hc & Hm).
    rewrite IH by (try rewrite Hm; assumption).
    rewrite Hm, Ht, newest_app, <- app_assoc. reflexivity.
Qed.

(** X8: the history is first-in first-out: on a new filter with
    capacity [C >= 0], after any sequence of [seed] and [add] calls the
    stored texts are exactly the [C] most recently inserted texts, in
    insertion order, where [seed] counts as inserting its whole
    argument. *)
Theorem history_is_the_newest_texts (ms : Q) (mh : Z) (ops : list op) :
  (0 <= mh)%Z ->
  _texts (run_ops (new_filter ms mh) ops) = newest (Z.to_nat mh) (inserted ops).
Proof.
  intros Hmh.
  apply (run_ops_texts_newest ops (new_filter ms mh) Hmh).
  unfold Generate.within_capacity. cbn. exact Hmh.
Qed.

(** *** Seeding *)

Lemma fold_add_without_eviction (l : list string) (self : NoveltyFilter) :
  (Z.of_nat (length (_texts self) + length l) <= max_history self)%Z ->
  _texts (fold_left add l self) = _texts self ++ l /\
  _hashes (fold_left add l self)
  = _hashes self ∪ list_to_set (text_hash <$> l).
Proof.
  revert self. induction l as [|q l IH]; intros self Hroom.
  - cbn [fold_left fmap list_fmap list_to_set]. rewrite app_nil_r.
    split; [reflexivity|]. rewrite union_empty_r_L. reflexivity.
  - cbn [fold_left length] in *.
    destruct (add_cases sha256_hexdigest self q) as [[_ Hadd]|[Hge _]]; [|lia].
    destruct (IH (add self q)) as [Ht Hh].
    { rewrite Hadd. cbn [_texts max_history]. rewrite length_app.
      cbn [length]. lia. }
    rewrite Ht, Hh, Hadd. cbn [_texts _hashes].
    split; [rewrite <- app_assoc; reflexivity|].
    cbn [fmap list_fmap list_to_set]. rewrite union_assoc_L. reflexivity.
Qed.

(** X9: seeding a new filter of capacity [C >= 1] from a previous run
    stores the [C] newest previous questions and exactly their
    fingerprints, also when questions repeat, so a seeded filter reports
    each of them as an exact duplicate. *)
Theorem seed_new_filter (ms : Q) (mh : Z) (previous : list string) :
  (0 < mh)%Z ->
  _texts (seed (new_filter ms mh) previous) = newest (Z.to_nat mh) previous /\
  _hashes (seed (new_filter ms mh) previous)
    = fingerprints (seed (new_filter ms mh) previous) /\
  (forall q, q ∈ newest (Z.to_nat mh) previous ->
     is_novel (seed (new_filter ms mh) previous) q
     = Returns (false, novelty_info true 1 None)).
Proof.
  intros Hmh. unfold Generate.seed. cbn [max_history new_filter].
  rewrite last_n_pos by exact Hmh. fold (newest (Z.to_nat mh) previous).
  destruct (fold_add_without_eviction (newest (Z.to_nat mh) previous)
              (new_filter ms mh)) as [Ht Hh].
  { cbn [_texts new_filter length max_history]. unfold newest.
    rewrite length_drop. lia. }
  cbn [_texts _hashes new_filter app] in Ht, Hh.
  rewrite union_empty_l_L in Hh.
  split; [exact Ht|]. split.
  - unfold Generate.fingerprints. rewrite Ht, Hh. reflexivity.
  - intros q Hq. apply is_novel_exact_duplicate. rewrite Hh.
    apply elem_of_list_to_set, list_elem_of_fmap. exists q. split; [reflexivity | exact Hq].
Qed.

(** *** The empty history *)

(** X10: a filter whose history is empty accepts every text with
    [max_sim = 0.0], whatever the threshold; a filter of capacity 0
    never keeps a text, so it accepts everything for ever. *)
Theorem empty_history_accepts (ms : Q) (ops : list op) (q : string) :
  is_novel (run_ops (new_filter ms 0) ops) q
    = Returns (true, novelty_info false 0 None) /\
  (forall mh, (0 <= mh)%Z ->
     _texts (run_ops (new_filter ms mh) ops) = [] ->
     is_novel (run_ops (new_filter ms mh) ops) q
     = Returns (true, novelty_info false 0 None)).
Proof.
  assert (Hgen : forall mh, (0 <= mh)%Z ->
            _texts (run_ops (new_filter ms mh) ops) = [] ->
            is_novel (run_ops (new_filter ms mh) ops) q
            = Returns (true, novelty_info false 0 None)).
  { intros mh Hmh Hempty.
    destruct (run_ops_bounded sha256_hexdigest tfidf_cosine ms mh ops Hmh)
      as [_ Hsub].
    unfold hashes_of_stored_texts, Generate.fingerprints in Hsub.
    rewrite Hempty in Hsub. cbn in Hsub.
    unfold Generate.is_novel. rewrite Hempty.
    destruct (decide _) as [Hin|_]; [|reflexivity].
    apply Hsub, not_elem_of_empty in Hin. contradiction. }
  split; [|exact Hgen].
  apply Hgen; [lia|].
  destruct (run_ops_bounded sha256_hexdigest tfidf_cosine ms 0 ops ltac:(lia))
    as [Hcap _].
  unfold Generate.within_capacity in Hcap.
  destruct (run_ops_config sha256_hexdigest ops (new_filter ms 0)) as [Hmh _].
  rewrite Hmh in Hcap. cbn [max_history new_filter] in Hcap.
  destruct (_texts (run_ops (new_filter ms 0) ops)); [reflexivity|].
  cbn [length] in Hcap. lia.
Qed.

(** *** The similarity threshold *)

(** X11: when the text is no exact duplicate and the similarity
    pipeline returns the similarities [x :: l] to the stored texts,
    [is_novel] reports their maximum as [max_sim] and the first position
    holding it as [sim_to_index], and it accepts the text exactly when
    every similarity is strictly below the threshold. *)
Theorem is_novel_threshold (self : NoveltyFilter) (q : string)
    (x : Q) (l : list Q) :
  text_hash q ∉ _hashes self ->
  _texts self <> [] ->
  tfidf_cosine (_texts self) q = Returns (x :: l) ->
  exists (ok : bool) (m : Q) (j : nat),
    is_novel self q = Returns (ok, novelty_info false m (Some j)) /\
    nth j (x :: l) 0%Q = m /\
    (forall y, In y (x :: l) -> (y <= m)%Q) /\
    (forall i, (i < j)%nat -> (nth i (x :: l) 0 < m)%Q) /\
    (ok = true <-> forall y, In y (x :: l) -> (y < max_sim self)%Q).
Proof.
  intros Hnot Hne Hsims.
  destruct (np_max_argmax x l) as (Hj & Hnth & Hmax & Hfirst).
  exists (negb (Qle_bool (max_sim self) (np_max_from x l))),
         (np_max_from x l), (np_argmax_from x 0 1 l).
  split; [|split; [exact Hnth | split; [exact Hmax | split; [exact Hfirst|]]]].
  - unfold Generate.is_novel.
    destruct (decide _) as [Hin|_]; [contradiction|].
    destruct (_texts self) as [|t ts] eqn:Ht; [contradiction|].
    rewrite Hsims. cbn [bind].
    destruct (Qle_bool (max_sim self) (np_max_from x l)); reflexivity.
  - destruct (Qle_bool (max_sim self) (np_max_from x l)) eqn:Hthr; cbn [negb].
    + split; [discriminate|]. intros Hall. exfalso.
      apply Qle_bool_iff in Hthr.
      assert (Hm : (np_max_from x l < max_sim self)%Q).
      { apply Hall. rewrite <- Hnth. apply nth_In, Hj. }
      exact (Qlt_not_le _ _ Hm Hthr).
    + split; [|reflexivity]. intros _ y Hy.
      eapply Qle_lt_trans; [apply Hmax, Hy|].
      apply Qnot_le_lt. intros Hc. apply Qle_bool_iff in Hc. congruence.
Qed.

End WithLibraries.

(** *** The retry loop *)

Section WithGenerator.

Variable sha256_hexdigest : string -> string.
Variable tfidf_cosine : list string -> string -> outcome (list Q).
Variable GenState : Type.
Variable generate : GenState -> Request -> QObj * GenState.

Local Abbreviation text_hash := (text_hash sha256_hexdigest).
Local Abbreviation add := (add sha256_hexdigest).
Local Abbreviation is_novel := (is_novel sha256_hexdigest tfidf_cosine).
Local Abbreviation in_sync := (in_sync sha256_hexdigest).
Local Abbreviation regen :=
  (regen sha256_hexdigest tfidf_cosine GenState generate).
Local Abbreviation generate_novel_question :=
  (generate_novel_question sha256_hexdigest tfidf_cosine GenState generate).

Lemma regen_result (k : nat) (req : Request) (gen : GenState)
    (novelty : NoveltyFilter) (last_info : gmap string pyval)
    qobj info gen' novelty' :
  last_info !! "forced" = None ->
  regen k req gen novelty last_info = Returns (qobj, info, gen', novelty') ->
  (info !! "forced" = Some (VBool true) /\ novelty' = novelty) \/
  (info !! "forced" = None /\
   novelty' = add novelty (strip (question qobj)) /\
   is_novel novelty (strip (question qobj)) = Returns (true, info)).
Proof.
  revert gen last_info. induction k as [|k IH]; intros gen last_info Hlast.
  - cbn [Generate.regen]. destruct (generate gen req) as [q g1].
    intros [= <- <- <- <-]. left. split; [|reflexivity].
    rewrite lookup_union_r by exact Hlast. reflexivity.
  - cbn [Generate.regen]. destruct (generate gen req) as [q g1].
    destruct (is_novel novelty (strip (question q))) as [[ok inf]|e] eqn:Hnov;
      cbn [bind]; [|discriminate].
    pose proof (is_novel_info_unforced _ _ _ _ _ _ Hnov) as Hunf.
    destruct ok.
    + intros [= <- <- <- <-]. right. repeat split; assumption.
    + apply IH. exact Hunf.
Qed.




(** X13: as long as the filter is only changed through
    [generate_novel_question], set and history stay in step: a filter
    whose fingerprint set is the image of a history with pairwise
    distinct fingerprints is returned in that state again; and when a
    question was accepted on a filter of capacity at least 1, asking
    [is_novel] for it right away reports an exact duplicate. *)
Theorem generate_novel_question_keeps_sync (gen gen' : GenState)
    (novelty novelty' : NoveltyFilter) (req : Request) (max_regen : Z)
    (qobj : QObj) (info : gmap string pyval) :
  in_sync novelty ->
  generate_novel_question gen novelty req max_regen
    = Returns (qobj, info, gen', novelty') ->
  in_sync novelty' /\
  (info !! "forced" = None -> (1 <= max_history novelty)%Z ->
   is_novel novelty' (strip (question qobj))
   = Returns (false, novelty_info true 1 None)).
Proof.
  intros Hsync Hret. unfold Generate.generate_novel_question in Hret.
  apply regen_result in Hret; [|apply lookup_empty].
  destruct Hret as [[Hforced ->]|(Hunf & -> & Hacc)].
  - split; [exact Hsync|]. intros Hnone. rewrite Hforced in Hnone.
    discriminate Hnone.
  - assert (Hnew : text_hash (strip (question qobj)) ∉ _hashes novelty).
    { intros Hin.
      rewrite (is_novel_exact_duplicate _ _ _ _ Hin) in Hacc.
      discriminate Hacc. }
    split; [apply add_in_sync; assumption|].
    intros _ Hcap. apply is_novel_after_add_kept.
    destruct (Z.lt_ge_cases (Z.of_nat (length (_texts novelty)))
                (max_history novelty)) as [Hlt|Hge]; [left; exact Hlt|].
    right. destruct (_texts novelty) as [|old rest] eqn:Ht;
      [cbn [length] in Hge; lia|].
    exists old, rest. split; [reflexivity|]. intros Heq. apply Hnew.
    destruct Hsync as [_ ->]. unfold Generate.fingerprints. rewrite Ht.
    rewrite <- Heq. cbn. apply elem_of_union_l, elem_of_singleton.
    reflexivity.
Qed.

End WithGenerator.

Section WithScript.

Variable sha256_hexdigest : string -> string.
Variable tfidf_cosine : list string -> string -> outcome (list Q).

Local Abbreviation add := (add sha256_hexdigest).
Local Abbreviation is_novel := (is_novel sha256_hexdigest tfidf_cosine).

Definition rejected_by (novelty : NoveltyFilter) (q : QObj) : Prop :=
  exists info, is_novel novelty (strip (question q)) = Returns (false, info).

Lemma regen_first_accepted (novelty : NoveltyFilter) (req : Request)
    (fallback q : QObj) (info : gmap string pyval)
    (rejected rest : list QObj) (k : nat) (last_info : gmap string pyval) :
  Forall (rejected_by novelty) rejected ->
  is_novel novelty (strip (question q)) = Returns (true, info) ->
  (length rejected < k)%nat ->
  regen sha256_hexdigest tfidf_cosine (list QObj) (scripted fallback)
    k req (rejected ++ q :: rest) novelty last_info
  = Returns (q, info, rest, add novelty (strip (question q))).
Proof.
  intros Hrej Hacc. revert k last_info.
  induction Hrej as [|c rejected [inf Hc] Hrej IH]; intros k last_info Hk.
  - destruct k as [|k]; [cbn [length] in Hk; lia|].
    cbn [app Generate.regen scripted]. rewrite Hacc. reflexivity.
  - destruct k as [|k]; [cbn [length] in Hk; lia|].
    cbn [app Generate.regen scripted]. rewrite Hc. cbn [bind].
    apply IH. cbn [length] in Hk. lia.
Qed.

(** X14: the loop stops at the first candidate the filter accepts:
    when the generator's replies start with fewer than [max_regen]
    rejected candidates followed by an accepted one, that one is
    returned with the info of its own check, its stripped text is
    added, and no further reply is requested. *)
Theorem first_accepted_candidate_is_returned (novelty : NoveltyFilter)
    (req : Request) (fallback q : QObj) (info : gmap string pyval)
    (rejected rest : list QObj) (max_regen : Z) :
  Forall (rejected_by novelty) rejected ->
  is_novel novelty (strip (question q)) = Returns (true, info) ->
  (Z.of_nat (length rejected) < max_regen)%Z ->
  generate_novel_question sha256_hexdigest tfidf_cosine (list QObj)
    (scripted fallback) (rejected ++ q :: rest) novelty req max_regen
  = Returns (q, info, rest, add novelty (strip (question q))).
Proof.
  intros Hrej Hacc Hk. unfold generate_novel_question.
  apply regen_first_accepted; [assumption | assumption | lia].
Qed.

End WithScript.

(** *** Instances *)

(** A stand-in for the digest in examples: the normal form itself. *)
Definition plain_digest (s : string) : string := s.

(** A similarity pipeline that answers with a fixed vector. *)
Definition fixed_similarities (sims : list Q)
  : list string -> string -> outcome (list Q) :=
  fun _ _ => Returns sims.

Definition one_question : NoveltyFilter :=
  add plain_digest (new_filter 0.88 10) "What is 2+2?".

Lemma one_question_state :
  one_question
  = mkNoveltyFilter 0.88 10 (∅ ∪ {[ "what is 22?" ]}) ["What is 2+2?"].
Proof.
  unfold one_question.
  destruct (add_cases plain_digest (new_filter 0.88 10) "What is 2+2?")
    as [[_ ->]|[Hge _]]; [reflexivity | cbn in Hge; lia].
Qed.

Lemma other_text_not_stored :
  text_hash plain_digest "Explain photosynthesis in plants."
    ∉ _hashes one_question.
Proof.
  rewrite one_question_state. cbn [_hashes].
  rewrite elem_of_union, elem_of_singleton.
  intros [Hin|Heq]; [apply not_elem_of_empty in Hin; exact Hin|].
  discriminate Heq.
Qed.


Lemma history_is_the_newest_texts_witness :
  _texts (run_ops plain_digest (new_filter 0.88 2)
            [OpAdd "a"; OpSeed ["b"; "c"]; OpAdd "d"])
  = newest 2 ["a"; "b"; "c"; "d"].
Proof.
  apply (history_is_the_newest_texts plain_digest 0.88 2
           [OpAdd "a"; OpSeed ["b"; "c"]; OpAdd "d"]).
  lia.
Defined.

Lemma seed_new_filter_witness :
  _texts (seed plain_digest (new_filter 0.88 2) ["a"; "b"; "b"])
  = newest 2 ["a"; "b"; "b"].
Proof.
  destruct (seed_new_filter plain_digest (fixed_similarities []) 0.88 2
              ["a"; "b"; "b"]) as (H & _); [lia | exact H].
Defined.

Lemma is_novel_threshold_witness :
  exists (ok : bool) (m : Q) (j : nat),
    is_novel plain_digest (fixed_similarities [0.5; 0.9; 0.9]%Q) one_question
      "Explain photosynthesis in plants."
    = Returns (ok, novelty_info false m (Some j)) /\
    nth j [0.5; 0.9; 0.9]%Q 0%Q = m.
Proof.
  destruct (is_novel_threshold plain_digest
              (fixed_similarities [0.5; 0.9; 0.9]%Q) one_question
              "Explain photosynthesis in plants." 0.5%Q [0.9; 0.9]%Q)
    as (ok & m & j & H1 & H2 & _).
  - exact other_text_not_stored.
  - rewrite one_question_state. discriminate.
  - reflexivity.
  - exists ok, m, j. split; assumption.
Defined.

Definition any_request : Request := mkRequest None 2 [] [].

Lemma accepts_other_text :
  is_novel plain_digest (fixed_similarities [0.5%Q]) one_question
    (strip (question (asks "Explain photosynthesis in plants.")))
  = Returns (true, novelty_info false 0.5 (Some 0%nat)).
Proof.
  unfold is_novel.
  destruct (decide _) as [Hin|_];
    [exfalso; exact (other_text_not_stored Hin)|].
  rewrite one_question_state. reflexivity.
Qed.

Lemma rejects_stored_text :
  rejected_by plain_digest (fixed_similarities [0.5%Q]) one_question
    (asks "What is 2+2?").
Proof.
  exists (novelty_info true 1 None). apply is_novel_exact_duplicate.
  rewrite one_question_state. cbn [_hashes].
  apply elem_of_union_r, elem_of_singleton. reflexivity.
Qed.

Lemma first_accepted_candidate_is_returned_witness :
  generate_novel_question plain_digest (fixed_similarities [0.5%Q])
    (list QObj) (scripted (asks "fallback"))
    ([asks "What is 2+2?"]
       ++ asks "Explain photosynthesis in plants." :: [asks "unused"])
    one_question any_request 6
  = Returns (asks "Explain photosynthesis in plants.",
             novelty_info false 0.5 (Some 0%nat),
             [asks "unused"],
             add plain_digest one_question
               (strip (question (asks "Explain photosynthesis in plants.")))).
Proof.
  apply (first_accepted_candidate_is_returned plain_digest
           (fixed_similarities [0.5%Q]) one_question any_request
           (asks "fallback") (asks "Explain photosynthesis in plants.")
           (novelty_info false 0.5 (Some 0%nat))
           [asks "What is 2+2?"] [asks "unused"] 6).
  - constructor; [exact rejects_stored_text | constructor].
  - exact accepts_other_text.
  - cbn. lia.
Defined.

Lemma one_question_in_sync : in_sync plain_digest one_question.
Proof.
  rewrite one_question_state. split.
  - cbn. apply NoDup_singleton.
  - unfold fingerprints. cbn. apply set_eq. intros x.
    rewrite !elem_of_union. tauto.
Qed.

Lemma generate_novel_question_keeps_sync_witness :
  in_sync plain_digest
    (add plain_digest one_question
       (strip (question (asks "Explain photosynthesis in plants.")))).
Proof.
  destruct (generate_novel_question_keeps_sync plain_digest
              (fixed_similarities [0.5%Q]) (list QObj)
              (scripted (asks "fallback"))
              [asks "Explain photosynthesis in plants."] []
              one_question
              (add plain_digest one_question
                 (strip (question (asks "Explain photosynthesis in plants."))))
              any_request 6
              (asks "Explain photosynthesis in plants.")
              (novelty_info false 0.5 (Some 0%nat))) as [H _].
  - exact one_question_in_sync.
  - apply (regen_first_accepted plain_digest (fixed_similarities [0.5%Q])
             one_question any_request (asks "fallback")
             (asks "Explain photosynthesis in plants.")
             (novelty_info false 0.5 (Some 0%nat)) [] [] 6 ∅).
    + constructor.
    + exact accepts_other_text.
    + cbn. lia.
  - exact H.
Defined.

End FilterFacts.

(** ** Further properties of bench/evolve.py *)

Module EvolveMore.
Import Py Evolve.

Lemma In_firstn {A : Type} (n : nat) (l : list A) (x : A) :
  In x (firstn n l) -> In x l.
Proof.
  intros Hin. rewrite <- (firstn_skipn n l). apply in_or_app. left. exact Hin.
Qed.

Lemma most_common_keys (n : Z) (items : list string) (k : string) :
  In k (map fst (most_common n (Counter items))) -> In k items.
Proof.
  intros Hin. apply in_map_iff in Hin as ([k' c] & <- & Hin).
  unfold most_common in Hin. apply In_firstn in Hin.
  apply (Permutation_in _ (EvolveFacts.sorted_by_count_desc_Permutation _)) in Hin.
  rewrite EvolveFacts.Counter_spec in Hin.
  apply in_map_iff in Hin as (k'' & Heq & Hk). injection Heq as <- _.
  apply EvolveFacts.first_seen_order_In, Hk.
Qed.

Lemma low_subscores_In (e : EvalRecord) (k : string) :
  In k (low_subscores e) ->
  exists v, In (k, v) (subscores e) /\ (v < 0.6)%Q /\ k <> "safety".
Proof.
  unfold low_subscores. intros Hin.
  apply in_map_iff in Hin as ([k' v] & <- & Hin).
  apply filter_In in Hin as [Hin Hcond]. cbn [fst snd] in *.
  apply andb_true_iff in Hcond as [Hlow Hsafe].
  exists v. split; [exact Hin|]. split.
  - apply Qnot_le_lt. intros Hle. apply Qle_bool_iff in Hle.
    rewrite Hle in Hlow. discriminate Hlow.
  - intros ->. rewrite String.eqb_refl in Hsafe. discriminate Hsafe.
Qed.

(** X15: the focus skills are never empty and at most three; each is
    the catch-all label or the label of a subscore dimension other
    than safety that some record of the window rated below 0.6; and
    without such a rating the result is just the catch-all label. *)
Theorem next_focus_skills (p : EvolutionPolicy) (history : list EvalRecord) :
  fst (next_focus p history) <> [] /\
  (length (fst (next_focus p history)) <= 3)%nat /\
  (forall s, In s (fst (next_focus p history)) ->
     s = "mixed reasoning and analysis" \/
     exists e k v,
       In e (recent_records p history) /\ In (k, v) (subscores e) /\
       (v < 0.6)%Q /\ k <> "safety" /\ s = skill_of k) /\
  ((forall e, In e (recent_records p history) -> low_subscores e = []) ->
   fst (next_focus p history) = ["mixed reasoning and analysis"]).
Proof.
  unfold next_focus.
  set (recent := recent_records p history).
  set (subs := map fst (most_common 3 (Counter (flat_map low_subscores recent)))).
  assert (Hlen : (length (map skill_of subs) <= 3)%nat).
  { unfold subs, most_common. rewrite !length_map.
    apply firstn_le_length. }
  assert (Hsrc : forall s, In s (map skill_of subs) ->
            exists e k v,
              In e recent /\ In (k, v) (subscores e) /\
              (v < 0.6)%Q /\ k <> "safety" /\ s = skill_of k).
  { intros s Hs. apply in_map_iff in Hs as (k & <- & Hk).
    apply most_common_keys, in_flat_map in Hk as (e & He & Hk).
    destruct (low_subscores_In e k Hk) as (v & Hv & Hlow & Hsafe).
    exists e, k, v. repeat split; assumption. }
  assert (Hnone : (forall e, In e recent -> low_subscores e = []) -> subs = []).
  { intros Hall. destruct subs as [|k ks] eqn:Hsubs; [reflexivity|].
    exfalso.
    assert (Hk : In k subs) by (rewrite Hsubs; left; reflexivity).
    apply most_common_keys, in_flat_map in Hk as (e & He & Hk).
    rewrite (Hall e He) in Hk. exact Hk. }
  destruct (map skill_of subs) as [|s ss] eqn:Hmap; cbn [fst].
  - split; [discriminate|]. split; [cbn; lia|]. split.
    + intros s [<-|[]]. left. reflexivity.
    + reflexivity.
  - split; [discriminate|]. split; [exact Hlen|]. split.
    + intros s' Hs'. right. apply Hsrc, Hs'.
    + intros Hall. rewrite (Hnone Hall) in Hmap. discriminate Hmap.
Qed.

Lemma step_cases (v : Q) :
  (Qle_bool 0.82 v = true /\ (0.82 <= v)%Q) \/
  (Qle_bool 0.82 v = false /\ Qle_bool v 0.62 = true /\ (v <= 0.62)%Q) \/
  (Qle_bool 0.82 v = false /\ Qle_bool v 0.62 = false /\
   (0.62 < v)%Q /\ (v < 0.82)%Q).
Proof.
  destruct (Qle_bool 0.82 v) eqn:Hhi.
  - left. split; [reflexivity | apply Qle_bool_iff, Hhi].
  - right. assert (Hlt : (v < 0.82)%Q).
    { apply Qnot_le_lt. intros Hc. apply Qle_bool_iff in Hc. congruence. }
    destruct (Qle_bool v 0.62) eqn:Hlo.
    + left. repeat split. apply Qle_bool_iff, Hlo.
    + right. repeat split; [|exact Hlt].
      apply Qnot_le_lt. intros Hc. apply Qle_bool_iff in Hc. congruence.
Qed.

Lemma thresholds_apart : ~ (0.82 <= 0.62)%Q.
Proof. unfold Qle. cbn. lia. Qed.

(** X16: [adjust_difficulty] is monotone in the current difficulty and
    in the trend value, moves a difficulty that lies within the bounds
    by at most one, and with crossed bounds
    ([difficulty_max < difficulty_min]) returns [difficulty_min]
    whatever it is given. *)
Theorem adjust_difficulty_monotone (p : EvolutionPolicy) :
  (forall c c' v, (c <= c')%Z ->
     (adjust_difficulty p c v <= adjust_difficulty p c' v)%Z) /\
  (forall c v v', (v <= v')%Q ->
     (adjust_difficulty p c v <= adjust_difficulty p c v')%Z) /\
  (forall c v, (difficulty_min p <= c <= difficulty_max p)%Z ->
     (c - 1 <= adjust_difficulty p c v <= c + 1)%Z) /\
  (forall c v, (difficulty_max p < difficulty_min p)%Z ->
     adjust_difficulty p c v = difficulty_min p).
Proof.
  split; [|split; [|split]].
  - intros c c' v Hc. unfold adjust_difficulty.
    destruct (Qle_bool 0.82 v); [lia|]. destruct (Qle_bool v 0.62); lia.
  - intros c v v' Hv. unfold adjust_difficulty.
    destruct (step_cases v) as [[-> H1]|[(-> & -> & H1)|(-> & -> & H1 & H2)]];
      destruct (step_cases v')
        as [[-> H1']|[(-> & -> & H1')|(-> & -> & H1' & H2')]];
      try lia; exfalso.
    + apply thresholds_apart.
      eapply Qle_trans; [exact H1|]. eapply Qle_trans; [exact Hv | exact H1'].
    + apply (Qlt_not_le _ _ H2'). eapply Qle_trans; [exact H1 | exact Hv].
    + apply (Qlt_not_le _ _ H1). eapply Qle_trans; [exact Hv | exact H1'].
  - intros c v Hc. unfold adjust_difficulty.
    destruct (Qle_bool 0.82 v); [lia|]. destruct (Qle_bool v 0.62); lia.
  - intros c v Hcross. unfold adjust_difficulty. lia.
Qed.

(** X17: a window of 0 is not an empty window: [eval_history[-0:]] is
    the whole list, so [next_focus] then reads the entire history, as
    it does for any window at least as long as the history; a negative
    window [-k] skips the [k] oldest records instead. *)
Theorem next_focus_window_edges (p : EvolutionPolicy)
    (history : list EvalRecord) :
  (window p = 0%Z \/ (Z.of_nat (length history) <= window p)%Z ->
   recent_records p history = history /\
   next_focus p history
   = next_focus (mkPolicy (Z.of_nat (length history) + 1) (focus_top_k_tags p)
                   (difficulty_min p) (difficulty_max p)) history) /\
  ((window p < 0)%Z ->
   recent_records p history = drop (Z.to_nat (- window p)) history).
Proof.
  assert (Hall : forall q : EvolutionPolicy,
            window q = 0%Z \/ (Z.of_nat (length history) <= window q)%Z ->
            recent_records q history = history).
  { intros q Hq. unfold recent_records.
    destruct history as [|e h]; [reflexivity|].
    destruct (Z.eq_dec (window q) 0%Z) as [Hz|Hne]; [rewrite Hz; apply last_n_zero|].
    destruct Hq as [Hq|Hq]; [contradiction|].
    rewrite last_n_pos by (cbn [length] in Hq; lia).
    replace (length (e :: h) - Z.to_nat (window q))%nat with 0%nat by lia.
    reflexivity. }
  split.
  - intros Hw. split; [apply Hall, Hw|].
    unfold next_focus. rewrite (Hall p Hw), Hall; [reflexivity|].
    right. cbn [window]. lia.
  - intros Hneg. unfold recent_records.
    destruct history as [|e h]; [rewrite drop_nil; reflexivity|].
    unfold last_n, slice_from.
    destruct (Z.ltb_spec (- window p) 0) as [Hlt|_]; [lia | reflexivity].
Qed.

End EvolveMore.

(** ** Further properties of bench/evaluate.py *)

Module EvaluateMore.
Import Py Evaluate.

(** The subscore dictionary once every dimension has its default. *)
Definition with_dimensions (subs : gmap string json) : gmap string json :=
  fold_left (fun s k => setdefault k (default_subscore k) s) dimensions subs.

Lemma empty_object (d : gmap string json) :
  (if truthy (JObj d) then JObj d else JObj ∅) = JObj d.
Proof.
  cbn [truthy]. destruct (Nat.eqb_spec (size d) 0) as [Hz|_]; cbn [negb];
    [|reflexivity].
  apply map_size_empty_iff in Hz. rewrite Hz. reflexivity.
Qed.

Section WithFloatParser.

Variable float_of_str : string -> option pyfloat.

Local Abbreviation clamp := (clamp float_of_str).
Local Abbreviation evaluate := (evaluate float_of_str).

Definition clamped_json (v : json) : json := JFloat (clamp v).

(** What each key of the returned record holds, in terms of the parsed
    object. *)
Definition normalised_at (d subs : gmap string json) (k : string)
  : option json :=
  if decide (k = "score")
  then Some (JFloat (clamp (default (JFloat (FFin 0)) (d !! "score"))))
  else if decide (k = "subscores")
  then Some (JObj (clamped_json <$> with_dimensions subs))
  else if decide (k = "error_tags")
  then Some (match d !! "error_tags" with
             | Some (JList l) => JList l
             | _ => JList []
             end)
  else if decide (k = "feedback")
  then Some (default (JStr "") (d !! "feedback"))
  else d !! k.

Ltac lookups :=
  repeat first [ rewrite lookup_insert | rewrite EvaluateFacts.setdefault_lookup ];
  repeat case_decide; simplify_eq; try reflexivity.

Lemma evaluate_lookup (d r : gmap string json) :
  evaluate (Some (JObj d)) = Returns r ->
  exists subs,
    default (JObj ∅) (d !! "subscores") = JObj subs /\
    forall k, r !! k = normalised_at d subs k.
Proof.
  unfold Evaluate.evaluate. rewrite empty_object.
  set (d1 := setdefault "subscores" (JObj ∅)
               (setdefault "score" (JFloat (FFin 0)) d)).
  assert (H1 : d1 !! "subscores" = Some (default (JObj ∅) (d !! "subscores"))).
  { unfold d1. lookups. }
  rewrite H1.
  destruct (default (JObj ∅) (d !! "subscores")) as [| | | | | |subs] eqn:Hs;
    try discriminate.
  fold (with_dimensions subs).
  set (d2 := setdefault "feedback" (JStr "")
               (setdefault "error_tags" (JList [])
                  (<[ "subscores" := JObj (with_dimensions subs) ]> d1))).
  assert (H2 : d2 !! "score" = Some (default (JFloat (FFin 0)) (d !! "score"))).
  { unfold d2, d1. lookups. }
  set (d3 := <[ "subscores" := JObj ((fun v => JFloat (clamp v))
                                       <$> with_dimensions subs) ]>
               (<[ "score" :=
                     JFloat (clamp (default (JFloat (FFin 0)) (d2 !! "score"))) ]>
                  d2)).
  assert (H3 : d3 !! "error_tags"
               = Some (default (JList []) (d !! "error_tags"))).
  { unfold d3, d2, d1. lookups. }
  assert (Hd3 : forall k,
            d3 !! k =
            if decide (k = "score")
            then Some (JFloat (clamp (default (JFloat (FFin 0)) (d !! "score"))))
            else if decide (k = "subscores")
            then Some (JObj (clamped_json <$> with_dimensions subs))
            else if decide (k = "error_tags")
            then Some (default (JList []) (d !! "error_tags"))
            else if decide (k = "feedback")
            then Some (default (JStr "") (d !! "feedback"))
            else d !! k).
  { intros k. unfold d3. rewrite H2. unfold d2, d1. lookups. }
  rewrite H3. intros Hret. exists subs. split; [reflexivity|].
  intros k. unfold normalised_at.
  destruct (d !! "error_tags") as [[| | | | |l|]|] eqn:Ht; cbn [default] in Hret;
    injection Hret as <-;
    first [ rewrite Hd3; rewrite ?Ht; cbn [default]; reflexivity
          | rewrite lookup_insert, Hd3, ?Ht; cbn [default];
            repeat case_decide; simplify_eq; reflexivity ].
Qed.

Lemma fold_setdefault_keeps (l : list string) (subs : gmap string json)
    (k : string) (v : json) :
  subs !! k = Some v ->
  fold_left (fun s k => setdefault k (default_subscore k) s) l subs !! k
  = Some v.
Proof.
  revert subs. induction l as [|x l IH]; intros subs Hk; [exact Hk|].
  cbn [fold_left]. apply IH. rewrite EvaluateFacts.setdefault_lookup.
  case_decide; [subst x; rewrite Hk; reflexivity | exact Hk].
Qed.

Lemma fold_setdefault_fixed (l : list string) (subs : gmap string json) :
  (forall k, In k l -> is_Some (subs !! k)) ->
  fold_left (fun s k => setdefault k (default_subscore k) s) l subs = subs.
Proof.
  induction l as [|x l IH]; intros Hall; [reflexivity|].
  cbn [fold_left].
  assert (Hx : setdefault x (default_subscore x) subs = subs).
  { unfold setdefault. destruct (Hall x (or_introl eq_refl)) as [v ->].
    reflexivity. }
  rewrite Hx. apply IH. intros k Hk. apply Hall. right. exact Hk.
Qed.

Lemma clamp_shape (x : json) :
  clamp x = FFin 0 \/ clamp x = FFin 1 \/
  exists q, clamp x = FFin q /\ Qle_bool 1 q = false /\ Qle_bool q 0 = false.
Proof.
  unfold Evaluate.clamp. destruct (to_float float_of_str x) as [f|];
    [|left; reflexivity].
  destruct f as [|[|]|q]; [right; left|left|right; left|]; try reflexivity.
  unfold py_min, py_max, flt.
  destruct (Qle_bool 1 q) eqn:H1; cbn [negb]; [right; left; reflexivity|].
  destruct (Qle_bool q 0) eqn:H0; cbn [negb]; [left; reflexivity|].
  right. right. exists q. repeat split; assumption.
Qed.

Lemma clamp_idempotent (x : json) : clamp (JFloat (clamp x)) = clamp x.
Proof.
  destruct (clamp_shape x) as [->|[->|(q & -> & H1 & H0)]];
    [reflexivity | reflexivity |].
  unfold Evaluate.clamp, to_float, py_min, py_max, flt.
  rewrite H1. cbn [negb]. rewrite H0. reflexivity.
Qed.

(** X18: [evaluate] copes with every reply that cannot be parsed and
    with every object whose ["subscores"] is missing or an object: it
    returns a record whose score and subscores are floats in [[0, 1]],
    with the five dimensions present and [error_tags] a list. *)
Theorem evaluate_normalises_objects (d : gmap string json) :
  d !! "subscores" = None \/ (exists s, d !! "subscores" = Some (JObj s)) ->
  exists r,
    evaluate (Some (JObj d)) = Returns r /\
    (exists f, r !! "score" = Some (JFloat f) /\ unit_float f) /\
    (exists subs,
       r !! "subscores" = Some (JObj subs) /\
       (forall k, In k dimensions ->
                  exists v, subs !! k = Some v /\ unit_json v) /\
       (forall k v, subs !! k = Some v -> unit_json v)) /\
    (exists l, r !! "error_tags" = Some (JList l)).
Proof.
  intros Hsubs.
  destruct (EvaluateFacts.evaluate_returns_on_objects float_of_str d Hsubs)
    as [_ [r Hr]].
  exists r. split; [exact Hr|].
  apply (EvaluateFacts.evaluate_returns_normalised float_of_str _ r Hr).
Qed.

(** X19: how [clamp] treats what is not a number in range: NaN and
    [+Infinity] become 1.0, [-Infinity] becomes 0.0; [null], lists and
    objects become 0.0; [true] is 1.0 and [false] 0.0; an integer of at
    least 1 becomes 1.0 unless it is too large for a float, in which
    case the [OverflowError] is swallowed and it becomes 0.0; a string
    that does not parse as a float becomes 0.0. *)
Theorem clamp_special_values :
  clamp (JFloat FNan) = FFin 1 /\
  clamp (JFloat (FInf false)) = FFin 1 /\
  clamp (JFloat (FInf true)) = FFin 0 /\
  clamp JNull = FFin 0 /\
  (forall l, clamp (JList l) = FFin 0) /\
  (forall d, clamp (JObj d) = FFin 0) /\
  clamp (JBool true) = FFin 1 /\
  clamp (JBool false) = FFin 0 /\
  (forall z, (1 <= z < float_overflow)%Z -> clamp (JInt z) = FFin 1) /\
  (forall z, (float_overflow <= z)%Z -> clamp (JInt z) = FFin 0) /\
  (forall s, float_of_str s = None -> clamp (JStr s) = FFin 0).
Proof.
  repeat split; try reflexivity.
  - intros z Hz. unfold Evaluate.clamp, to_float.
    destruct (Z.ltb_spec (Z.abs z) float_overflow) as [_|Hge]; [|lia].
    unfold py_min, py_max, flt.
    assert (H1 : Qle_bool 1 (inject_Z z) = true).
    { apply Qle_bool_iff. unfold Qle. cbn. lia. }
    rewrite H1. reflexivity.
  - intros z Hz. unfold Evaluate.clamp, to_float.
    destruct (Z.ltb_spec (Z.abs z) float_overflow) as [Hlt|_]; [lia|].
    reflexivity.
  - intros s Hs. unfold Evaluate.clamp, to_float. rewrite Hs. reflexivity.
Qed.

(** X20: [evaluate] touches four keys only.  Every other key of the
    reply is returned as it came; [feedback] is returned as it came
    whatever its type (the empty string when missing); an [error_tags]
    list is returned unchanged, elements unchecked, and anything else
    there is replaced by the empty list; and a subscore outside the five
    dimensions is kept, clamped like the others. *)
Theorem evaluate_other_fields (d r : gmap string json) :
  evaluate (Some (JObj d)) = Returns r ->
  (forall k, k <> "score" -> k <> "subscores" -> k <> "error_tags" ->
             k <> "feedback" -> r !! k = d !! k) /\
  r !! "feedback" = Some (default (JStr "") (d !! "feedback")) /\
  r !! "error_tags" = Some (match d !! "error_tags" with
                            | Some (JList l) => JList l
                            | _ => JList []
                            end) /\
  (forall subs k v,
     d !! "subscores" = Some (JObj subs) -> subs !! k = Some v ->
     exists subs', r !! "subscores" = Some (JObj subs') /\
                   subs' !! k = Some (JFloat (clamp v))).
Proof.
  intros Hret. destruct (evaluate_lookup d r Hret) as (subs0 & Hs & Hr).
  split; [|split; [|split]].
  - intros k H1 H2 H3 H4. rewrite Hr. unfold normalised_at.
    repeat case_decide; try contradiction. reflexivity.
  - rewrite Hr. reflexivity.
  - rewrite Hr. reflexivity.
  - intros subs k v Hd Hk. rewrite Hd in Hs. cbn [default] in Hs.
    injection Hs as <-.
    exists (clamped_json <$> with_dimensions subs). split.
    + rewrite Hr. reflexivity.
    + rewrite lookup_fmap. unfold with_dimensions.
      rewrite (fold_setdefault_keeps _ _ _ _ Hk). reflexivity.
Qed.

(** X21: normalisation is idempotent: feeding the record returned by
    [evaluate] back into it returns the same record. *)
Theorem evaluate_idempotent (extracted : option json) (r : gmap string json) :
  evaluate extracted = Returns r ->
  evaluate (Some (JObj r)) = Returns r.
Proof.
  intros Hret.
  assert (Hobj : exists d, evaluate (Some (JObj d)) = Returns r).
  { unfold Evaluate.evaluate in Hret.
    destruct extracted as [v|]; [|exists ∅; exact Hret].
    destruct (truthy v) eqn:Htr; [|exists ∅; exact Hret].
    destruct v as [| | | | | |d]; try discriminate Hret.
    exists d. unfold Evaluate.evaluate. rewrite Htr. exact Hret. }
  destruct Hobj as [d Hd].
  destruct (evaluate_lookup d r Hd) as (subs & Hs & Hr).
  assert (Hsubs : r !! "subscores"
                  = Some (JObj (clamped_json <$> with_dimensions subs))).
  { rewrite Hr. reflexivity. }
  destruct (EvaluateFacts.evaluate_returns_on_objects float_of_str r)
    as [_ [r' Hr']]; [right; eexists; exact Hsubs|].
  destruct (evaluate_lookup r r' Hr') as (subs' & Hs' & Hr'').
  rewrite Hsubs in Hs'. cbn [default] in Hs'. injection Hs' as <-.
  rewrite Hr'. f_equal. apply map_eq. intros k.
  rewrite Hr'', Hr. unfold normalised_at.
  repeat case_decide; try reflexivity.
  - rewrite Hr. unfold normalised_at.
    repeat case_decide; try congruence.
    change (default (JFloat (FFin 0))
              (Some (JFloat (clamp (default (JFloat (FFin 0)) (d !! "score"))))))
      with (JFloat (clamp (default (JFloat (FFin 0)) (d !! "score")))).
    rewrite clamp_idempotent. reflexivity.
  - f_equal. f_equal.
    assert (Hfix : with_dimensions (clamped_json <$> with_dimensions subs)
                   = clamped_json <$> with_dimensions subs).
    { apply fold_setdefault_fixed. intros x Hx. rewrite lookup_fmap.
      destruct (EvaluateFacts.with_dimensions_lookup subs x Hx) as [w Hw].
      unfold with_dimensions. rewrite Hw. eexists. reflexivity. }
    rewrite Hfix. apply map_eq. intros x. rewrite !lookup_fmap.
    destruct (with_dimensions subs !! x) as [w|]; [|reflexivity].
    cbn. unfold clamped_json. rewrite clamp_idempotent. reflexivity.
  - rewrite Hr. unfold normalised_at.
    repeat case_decide; try congruence.
    destruct (d !! "error_tags") as [[]|]; reflexivity.
  - rewrite Hr. unfold normalised_at.
    repeat case_decide; try congruence. reflexivity.
  - rewrite Hr. unfold normalised_at.
    repeat case_decide; congruence.
Qed.

End WithFloatParser.

(** *** Instances *)

(** A string parser that accepts nothing, for examples without string
    scores. *)
Definition no_float_strings (s : string) : option pyfloat := None.

Definition sample_reply : gmap string json :=
  {[ "score" := JFloat (FFin 1.7);
     "subscores" := JObj {[ "safety" := JInt (-3); "style" := JBool true ]};
     "error_tags" := JStr "none";
     "grader" := JStr "m" ]}.

Definition sample_record : gmap string json :=
  match evaluate no_float_strings (Some (JObj sample_reply)) with
  | Returns r => r
  | Raises _ => ∅
  end.

Lemma sample_reply_evaluates :
  evaluate no_float_strings (Some (JObj sample_reply)) = Returns sample_record.
Proof. reflexivity. Qed.

Lemma evaluate_normalises_objects_witness :
  exists r, evaluate no_float_strings (Some (JObj sample_reply)) = Returns r.
Proof.
  destruct (evaluate_normalises_objects no_float_strings sample_reply)
    as (r & Hr & _).
  - right. eexists. reflexivity.
  - exists r. exact Hr.
Defined.

Lemma evaluate_other_fields_witness :
  sample_record !! "grader" = sample_reply !! "grader".
Proof.
  destruct (evaluate_other_fields no_float_strings sample_reply sample_record
              sample_reply_evaluates) as (H & _).
  apply H; discriminate.
Defined.

Lemma evaluate_idempotent_witness :
  evaluate no_float_strings (Some (JObj sample_record)) = Returns sample_record.
Proof.
  apply (evaluate_idempotent no_float_strings (Some (JObj sample_reply))
           sample_record sample_reply_evaluates).
Defined.

End EvaluateMore.

(** ** bench/generate.py: the reply of [QuestionGenerator.generate] *)

Module Reply.
Import Py Evaluate.

Definition default_topic : string :=
  "life sciences, data science, reasoning, and software engineering".

(** [topic or "life sciences, ..."]: [None] and the empty string are
    both falsy. *)
Definition topic_str (topic : option string) : string :=
  match topic with
  | Some t => if String.eqb t "" then default_topic else t
  | None => default_topic
  end.

(** [focus_skills or ["analysis"]] as a JSON list. *)
Definition skills_or_default (focus_skills : list string) : json :=
  match focus_skills with
  | [] => JList [JStr "analysis"]
  | _ :: _ => JList (map JStr focus_skills)
  end.

Definition default_constraints : json :=
  JObj {[ "format" := JStr "short essay";
          "must_include" := JList [];
          "must_avoid" := JList [] ]}.

(** The statements of [generate] after the model call: [txt] is the
    raw reply and [extracted] what [_safe_json_extract] made of it. *)
Definition normalize_reply (topic : option string) (difficulty : Z)
    (focus_skills : list string) (txt : string) (extracted : option json)
  : outcome (gmap string json) :=
  let obj := match extracted with
             | Some v => if truthy v then v else JObj ∅
             | None => JObj ∅
             end in
  match obj with
  | JObj d =>
      let d := setdefault "topic" (JStr (topic_str topic)) d in
      let d := setdefault "difficulty" (JInt difficulty) d in
      let d := setdefault "skills" (skills_or_default focus_skills) d in
      let d := match d !! "question" with
               | Some _ => d
               | None => <[ "question" := JStr (Generate.strip txt) ]> d
               end in
      let d := setdefault "constraints" default_constraints d in
      Returns d
  | _ => Raises no_setdefault
  end.

Definition reply_keys : list string :=
  [ "question"; "topic"; "difficulty"; "skills"; "constraints" ].

(** What [generate] fills in for a key the reply lacks. *)
Definition reply_default (topic : option string) (difficulty : Z)
    (focus_skills : list string) (txt : string) (k : string) : option json :=
  if decide (k = "question") then Some (JStr (Generate.strip txt))
  else if decide (k = "topic") then Some (JStr (topic_str topic))
  else if decide (k = "difficulty") then Some (JInt difficulty)
  else if decide (k = "skills") then Some (skills_or_default focus_skills)
  else if decide (k = "constraints") then Some default_constraints
  else None.

Lemma question_setdefault (v : json) (d : gmap string json) :
  match d !! "question" with
  | Some _ => d
  | None => <[ "question" := v ]> d
  end = setdefault "question" v d.
Proof. reflexivity. Qed.

Lemma normalize_reply_lookup (topic : option string) (difficulty : Z)
    (focus_skills : list string) (txt : string) (d : gmap string json) :
  exists r,
    normalize_reply topic difficulty focus_skills txt (Some (JObj d))
      = Returns r /\
    forall k, r !! k =
              match d !! k with
              | Some v => Some v
              | None => reply_default topic difficulty focus_skills txt k
              end.
Proof.
  unfold normalize_reply. rewrite EvaluateMore.empty_object.
  eexists. split; [reflexivity|].
  intros k. rewrite question_setdefault. unfold reply_default.
  repeat rewrite EvaluateFacts.setdefault_lookup.
  repeat case_decide; simplify_eq;
    repeat match goal with
           | |- context [d !! ?x] => destruct (d !! x); cbn [default]
           end; reflexivity.
Qed.

(** X22: on every reply that parses to an object, [generate] returns a
    dictionary that has the keys question, topic, difficulty, skills
    and constraints, never overwrites a key the reply already has
    (whatever its value or type), and passes every other key through
    unchanged. *)
Theorem normalize_reply_fields (topic : option string) (difficulty : Z)
    (focus_skills : list string) (txt : string) (d : gmap string json) :
  exists r,
    normalize_reply topic difficulty focus_skills txt (Some (JObj d))
      = Returns r /\
    (forall k, In k reply_keys -> is_Some (r !! k)) /\
    (forall k v, d !! k = Some v -> r !! k = Some v) /\
    (forall k, ~ In k reply_keys -> r !! k = d !! k).
Proof.
  destruct (normalize_reply_lookup topic difficulty focus_skills txt d)
    as (r & Hr & Hk).
  exists r. split; [exact Hr|]. split; [|split].
  - intros k Hin. rewrite Hk. destruct (d !! k); [eexists; reflexivity|].
    unfold reply_default.
    cbn [reply_keys In] in Hin.
    destruct Hin as [<-|[<-|[<-|[<-|[<-|[]]]]]]; eexists; reflexivity.
  - intros k v Hd. rewrite Hk, Hd. reflexivity.
  - intros k Hnot. rewrite Hk. destruct (d !! k); [reflexivity|].
    unfold reply_default. cbn [reply_keys In] in Hnot.
    repeat case_decide; try reflexivity; exfalso; apply Hnot; subst k; tauto.
Qed.

(** X23: the fallbacks of [generate]: a reply that cannot be parsed (or
    parses to an empty or falsy value) becomes a question whose text is
    the stripped raw reply, with the requested topic (the stock topic
    when none or an empty one was requested), the requested difficulty,
    the focus skills (["analysis"] when there are none) and the stock
    constraints; a reply that parses to a non-empty array, a non-empty
    string, a non-zero number or [true] makes [generate] raise
    [AttributeError]. *)
Theorem normalize_reply_fallbacks (topic : option string) (difficulty : Z)
    (focus_skills : list string) (txt : string) :
  normalize_reply topic difficulty focus_skills txt None
  = Returns {[ "question" := JStr (Generate.strip txt);
               "topic" := JStr (topic_str topic);
               "difficulty" := JInt difficulty;
               "skills" := skills_or_default focus_skills;
               "constraints" := default_constraints ]} /\
  (forall v, truthy v = false ->
     normalize_reply topic difficulty focus_skills txt (Some v)
     = normalize_reply topic difficulty focus_skills txt None) /\
  topic_str None = default_topic /\
  topic_str (Some "") = default_topic /\
  skills_or_default [] = JList [JStr "analysis"] /\
  (forall v, truthy v = true -> (forall d, v <> JObj d) ->
     normalize_reply topic difficulty focus_skills txt (Some v)
     = Raises no_setdefault).
Proof.
  split; [|split; [|split; [|split; [|split]]]]; try reflexivity.
  - intros v Hv. unfold normalize_reply. rewrite Hv. reflexivity.
  - intros v Hv Hobj. unfold normalize_reply. rewrite Hv.
    destruct v as [| | | | | |d]; try reflexivity.
    exfalso. exact (Hobj d eq_refl).
Qed.

End Reply.
